(** * ucode command-line front end (main.c): shallow embedding and properties

    The development follows main.c function by function:
    [globals_init], [register_variable], [parse], [read_stdin],
    [parse_envfile] and [main].  Library code that main.c only calls
    (stdio streams, json-c objects, the json-c tokener, the ucode compiler
    and virtual machine) is modelled by small interfaces. *)

From Stdlib Require Import ZArith String Ascii Bool Arith Lia List.
Import ListNotations.
Set Warnings "-register-all".
Local Open Scope string_scope.
Local Open Scope list_scope.
Local Open Scope Z_scope.

(* ===================================================================== *)
(** ** Bytes, plain [char], and stdio streams *)
(* ===================================================================== *)

Module Stdio.

(** A byte is a [Z] in [0, 256).  [fgetc] returns an [int]: a byte or [EOF]. *)
Definition EOF : Z := -1.

Definition byte_of_ascii (a : ascii) : Z := Z.of_N (N_of_ascii a).

Definition bytes_of_string (s : string) : list Z :=
  map byte_of_ascii (list_ascii_of_string s).

Definition is_byte (b : Z) : Prop := 0 <= b < 256.

(** Conversion of an [int] to plain [char] and its promotion back to [int]
    when the variable is used.  Whether plain [char] is signed is fixed by
    the platform ABI (signed on x86 and MIPS, unsigned on ARM and PowerPC),
    so it is a parameter of the model. *)
Definition to_char (char_signed : bool) (i : Z) : Z :=
  let u := i mod 256 in
  if char_signed && (128 <=? u) then u - 256 else u.

(** A stream open for reading: the bytes the next reads will deliver, in
    order.  [ungetc] pushes onto the front, so the byte pushed last is the
    one read first. *)
Record FILE : Type := mkFILE { unread : list Z }.

Definition fgetc (fp : FILE) : Z * FILE :=
  match unread fp with
  | [] => (EOF, fp)
  | b :: rest => (b, mkFILE rest)
  end.

(** [ungetc(c, fp)]: fails and leaves the stream unchanged when [c] equals
    [EOF]; otherwise pushes back [c] converted to [unsigned char]. *)
Definition ungetc (c : Z) (fp : FILE) : FILE :=
  if c =? EOF then fp else mkFILE (c mod 256 :: unread fp).

(** [fread(buf, 1, n, fp)]: up to [n] bytes; fewer only at end of input. *)
Definition fread (n : nat) (fp : FILE) : list Z * FILE :=
  (firstn n (unread fp), mkFILE (skipn n (unread fp))).

End Stdio.

(* ===================================================================== *)
(** ** json-c values *)
(* ===================================================================== *)

Module Json.

(** A [json_object *].  The C null pointer is JSON null ([Jnull]).
    [Jcfunction] stands for the extended values that carry native
    functions of the standard library. *)
Inductive json : Type :=
| Jnull
| Jboolean (b : bool)
| Jint (i : Z)
| Jstring (s : string)
| Jarray (items : list json)
| Jobject (members : list (string * json))
| Jcfunction (name : string).

Definition is_null (v : json) : bool :=
  match v with Jnull => true | _ => false end.

(** [json_object_is_type(v, json_type_object)] *)
Definition is_object (v : json) : bool :=
  match v with Jobject _ => true | _ => false end.

(** Members of an object keep insertion order.  Adding under a key that is
    already present replaces that member's value where it stands. *)
Fixpoint members_add (m : list (string * json)) (k : string) (v : json)
  : list (string * json) :=
  match m with
  | [] => [(k, v)]
  | (k', v') :: rest =>
      if String.eqb k' k then (k, v) :: rest
      else (k', v') :: members_add rest k v
  end.

Fixpoint members_get (m : list (string * json)) (k : string) : option json :=
  match m with
  | [] => None
  | (k', v') :: rest => if String.eqb k' k then Some v' else members_get rest k
  end.

Definition members_of (o : json) : list (string * json) :=
  match o with Jobject m => m | _ => [] end.

Definition json_object_object_add (o : json) (k : string) (v : json) : json :=
  match o with
  | Jobject m => Jobject (members_add m k v)
  | _ => o
  end.

Definition json_object_object_get (o : json) (k : string) : option json :=
  members_get (members_of o) k.

Definition json_object_array_add (a : json) (v : json) : json :=
  match a with
  | Jarray l => Jarray (l ++ [v])
  | _ => a
  end.

(** [xjs_new_object] and [xjs_new_array] (lib.h) wrap json-c's
    constructors of an empty object and an empty array. *)
Definition xjs_new_object : json := Jobject [].
Definition xjs_new_array : json := Jarray [].

(** [add_all dst m]: the body of a [json_object_object_foreach] loop that
    adds every member of [m], in order, to [dst]. *)
Definition add_all (dst : json) (m : list (string * json)) : json :=
  fold_left (fun d kv => json_object_object_add d (fst kv) (snd kv)) m dst.

End Json.

(* ===================================================================== *)
(** ** main.c *)
(* ===================================================================== *)

Module Ucode.
Import Stdio Json.

(** Result of running a piece of the program.  [Undefined]: the C code has
    no defined behaviour on this path (it evaluates a variable that was
    never assigned).  [Out_of_fuel]: the loop fuel given by the caller ran out. *)
Inductive outcome (A : Type) : Type :=
| Ret (a : A)
| Undefined
| Out_of_fuel.
Arguments Ret {A} a.
Arguments Undefined {A}.
Arguments Out_of_fuel {A}.

Definition bind {A B} (m : outcome A) (k : A -> outcome B) : outcome B :=
  match m with
  | Ret a => k a
  | Undefined => Undefined
  | Out_of_fuel => Out_of_fuel
  end.

Notation "x <- m ;; k" := (bind m (fun x => k))
  (at level 61, m at next level, right associativity).
Notation "' p <- m ;; k" := (bind m (fun x => match x with p => k end))
  (at level 61, p pattern, m at next level, right associativity).

(** *** Interfaces of the code main.c calls *)

(** [enum json_tokener_error]: only success and continue are told apart
    from the parse errors by main.c. *)
Inductive json_tokener_error : Type :=
| json_tokener_success
| json_tokener_continue
| json_tokener_error_parse.

Definition tokener_error_eqb (a b : json_tokener_error) : bool :=
  match a, b with
  | json_tokener_success, json_tokener_success
  | json_tokener_continue, json_tokener_continue
  | json_tokener_error_parse, json_tokener_error_parse => true
  | _, _ => false
  end.

(** The incremental json-c tokener: [json_tokener_parse_ex] consumes one
    chunk, updates the tokener and returns the value (NULL unless one is
    complete); [json_tokener_get_error] reads the state it ended in. *)
Record json_tokener : Type := mk_tokener {
  tok_state : Type;
  xjs_new_tokener : tok_state;
  json_tokener_parse_ex : tok_state -> list Z -> json * tok_state;
  json_tokener_get_error : tok_state -> json_tokener_error
}.

Record uc_parse_config : Type := mk_config {
  strict_declarations : bool;
  lstrip_blocks : bool;
  trim_blocks : bool
}.

(** [uc_source]: label, stream, and the offset base [off].  [off] is a
    [size_t] that main.c only increments, once per byte it has read from
    the stream, so it stays below the size of the source and cannot wrap. *)
Record uc_source : Type := mk_source {
  filename : string;
  fp : FILE;
  off : nat
}.

(** [uc_prototype]: a scope object and its parent scope. *)
Inductive uc_prototype : Type :=
| mk_proto (jso : json) (parent : option uc_prototype).

Definition jso (s : uc_prototype) : json := let (j, _) := s in j.
Definition parent (s : uc_prototype) : option uc_prototype := let (_, p) := s in p.
Definition set_jso (s : uc_prototype) (j : json) : uc_prototype := mk_proto j (parent s).

(** Modelled from the spec: [uc_prototype_new] and [uc_protoref_new]
    (object.c, not under src/) build the Scope Object of the spec: a
    mapping, empty or the given one, with an optional link to one parent
    scope. *)
Definition uc_prototype_new (parent : option uc_prototype) : uc_prototype :=
  mk_proto xjs_new_object parent.
Definition uc_protoref_new (value : json) (proto : uc_prototype) : uc_prototype :=
  mk_proto value (Some proto).

(** [sizeof(buf)] for the [char buf[128]] of [read_stdin] and [parse_envfile]. *)
Definition chunk_size : nat := 128.

(** *** Observable events *)

Inductive errno_t : Type :=
| EINVAL          (* set by read_stdin *)
| E_fopen.        (* whatever fopen left behind *)

Inductive diag : Type :=
| Usage                                  (* print_usage *)
| Options_exclusive                      (* "Options -i and -s are exclusive" *)
| Stdin_only_once                        (* "Can read from stdin only once" *)
| Failed_to_open (path : string) (e : errno_t)   (* "Failed to open %s: %s" *)
| Invalid_json_option (opt : ascii)      (* "Option -%c must point to a valid JSON object" *)
| Source_required                        (* "One of -i or -s is required" *)
| Compile_error (msg : string).          (* the compiler's message *)

Inductive resource : Type :=
| the_vm                  (* uc_vm_free(&vm) *)
| the_globals             (* uc_value_put(globals->header.jso) *)
| the_rootscope           (* uc_value_put(rootscope->header.jso) *)
| the_value (v : json)    (* json_object_put(v) *)
| the_tokener             (* json_tokener_free(tok) *)
| the_envfile             (* uc_source_put(envfile) *)
| the_modules             (* json_object_put(modules) *)
| the_env                 (* json_object_put(env) *)
| the_source.             (* uc_source_put(source) *)

Inductive event : Type :=
| Print (d : diag)
| Fread_stdin (rlen : nat)
| Vm_init
| Compile (config : uc_parse_config) (src : uc_source)
| Execute (rootscope : uc_prototype) (modules : json)
| Release (r : resource).

(** Process-wide state: the standard input stream, [errno], and the
    events so far (oldest first). *)
Record world : Type := mk_world {
  stdin_stream : FILE;
  errno : errno_t;
  trace : list event
}.

Definition emit (e : event) (w : world) : world :=
  mk_world (stdin_stream w) (errno w) (trace w ++ [e]).
Definition set_errno (e : errno_t) (w : world) : world :=
  mk_world (stdin_stream w) e (trace w).
Definition set_stdin (f : FILE) (w : world) : world :=
  mk_world f (errno w) (trace w).

(** The options as [getopt(argc, argv, "hlrSe:E:i:s:m:")] returns them, in
    order, and [argv[optind]] once it returns -1.  [Opt_other] is the '?'
    answer (an unknown option letter or a missing argument), which the
    switch has no case for. *)
Inductive cli_opt : Type :=
| Opt_h
| Opt_i (optarg : string)
| Opt_l
| Opt_r
| Opt_s (optarg : string)
| Opt_S
| Opt_e (optarg : string)
| Opt_E (optarg : string)
| Opt_m (optarg : string)
| Opt_other.

Record cmdline : Type := mk_cmdline {
  argc : Z;
  opts : list cli_opt;
  operand : option string        (* argv[optind], None when NULL *)
}.

Section Program.

(** Platform and collaborators. *)
Variable char_signed : bool.                 (* is plain char signed? *)
Variable LIB_SEARCH_PATH : string.           (* build-time macro *)
Variable tokener : json_tokener.             (* json-c *)
Variable functions : list (string * json).   (* the standard library table *)
Variable file_system : string -> option (list Z).   (* fopen(path, "rb") *)
Variable uc_function : Type.
Variable uc_compile : uc_parse_config -> uc_source -> uc_function + string.
Variable uc_vm_execute : uc_function -> uc_prototype -> json -> Z.

(** Modelled from the spec: [uc_source_new_file] and [uc_source_new_buffer]
    (source.c, not under src/) build the Source Handle of the spec: a label,
    a read cursor at the start of the backing storage (the opened file, or
    the first [len] bytes of the buffer) and a zero offset base.  Opening a
    file can fail; wrapping a buffer cannot. *)
Definition uc_source_new_file (path : string) : option uc_source :=
  match file_system path with
  | Some bytes => Some (mk_source path (mkFILE bytes) 0)
  | None => None
  end.

Definition uc_source_new_buffer (name : string) (buf : list Z) (len : nat) : uc_source :=
  mk_source name (mkFILE (firstn len buf)) 0.

(** Modelled from the spec: [uc_lib_init] (lib.c, not under src/) is the
    standard-library installer; it populates the built-in bindings of the
    library table into the scope it is given.  A name that the scope binds
    already is not overwritten: the specification (4.5 (3)) lets the value
    installed before the library win a collision.  [install_binding] is
    the installation of one table entry. *)
Definition install_binding (o : json) (kv : string * json) : json :=
  match json_object_object_get o (fst kv) with
  | Some _ => o
  | None => json_object_object_add o (fst kv) (snd kv)
  end.

(** Modelled from the spec: see [install_binding]. *)
Definition uc_lib_init (scope : uc_prototype) : uc_prototype :=
  set_jso scope (fold_left install_binding functions (jso scope)).

(** *** globals_init *)

(** The loop over [LIB_SEARCH_PATH]: [seg] is the text between [last] and
    [p]; a segment is added at every ':' and at the terminator. *)
Fixpoint split_search_path (p : string) (seg : string) (arr : json) : json :=
  match p with
  | EmptyString => json_object_array_add arr (Jstring seg)
  | String c rest =>
      if Ascii.eqb c ":"%char
      then split_search_path rest "" (json_object_array_add arr (Jstring seg))
      else split_search_path rest (seg ++ String c "")%string arr
  end.

Definition globals_init (scope : uc_prototype) : uc_prototype :=
  let arr := split_search_path LIB_SEARCH_PATH "" xjs_new_array in
  set_jso scope (json_object_object_add (jso scope) "REQUIRE_SEARCH_PATH" arr).

(** *** register_variable *)

(** [isalnum] in the "C" locale (main.c never calls setlocale): true on
    ASCII letters and digits only, false on every other [int]. *)
Definition isalnum (c : Z) : bool :=
  ((48 <=? c) && (c <=? 57)) || ((65 <=? c) && (c <=? 90)) || ((97 <=? c) && (c <=? 122)).

(** One step of [for (p = name; *p; p++) if (!isalnum( *p) && *p != '_') *p = '_';] *)
Definition sanitize_char (a : ascii) : ascii :=
  let c := to_char char_signed (byte_of_ascii a) in
  if negb (isalnum c) && negb (c =? 95) then "_"%char else a.

Fixpoint sanitize (name : string) : string :=
  match name with
  | EmptyString => EmptyString
  | String a rest => String (sanitize_char a) (sanitize rest)
  end.

(** [strdup] is taken to succeed; when it fails the C function returns
    without installing anything. *)
Definition register_variable (scope : uc_prototype) (key : string) (val : json)
  : uc_prototype :=
  let name := sanitize key in        (* strdup(key), rewritten in place *)
  set_jso scope (json_object_object_add (jso scope) name val).

(** *** parse *)

(** [while ((c = fgetc(src->fp)) != EOF) { src->off++; if (c == '\n') break; }]
    with [c] a plain [char]. *)
Fixpoint shebang_loop (fuel : nat) (f : FILE) (o : nat) : outcome (FILE * nat) :=
  match fuel with
  | O => Out_of_fuel
  | S fuel' =>
      let (i, f') := fgetc f in
      let c := to_char char_signed i in
      if c =? EOF then Ret (f', o)
      else
        let o' := S o in
        if c =? 10 then Ret (f', o') else shebang_loop fuel' f' o'
  end.

Definition skip_shebang (fuel : nat) (src : uc_source) : outcome uc_source :=
  let (i1, f1) := fgetc (fp src) in
  let c := to_char char_signed i1 in
  let (i2, f2) := fgetc f1 in
  let c2 := to_char char_signed i2 in
  if (c =? 35) && (c2 =? 33) then          (* c == '#' && c2 == '!' *)
    '(f3, o) <- shebang_loop fuel f2 (off src) ;;
    Ret (mk_source (filename src) f3 o)
  else
    Ret (mk_source (filename src) (ungetc c (ungetc c2 f2)) (off src)).

(** Lines 134-150: the globals scope and the root scope over it. *)
Definition load_env (globals : uc_prototype) (env : json) : uc_prototype :=
  if is_null env then globals
  else fold_left (fun g kv => register_variable g (fst kv) (snd kv))
                 (members_of env) globals.

Definition build_globals (globals : uc_prototype) (env : json) : uc_prototype :=
  let globals := globals_init globals in        (* load global variables *)
  let globals := load_env globals env in        (* load env variables *)
  uc_lib_init globals.                          (* load std functions *)

Definition build_rootscope (globals : uc_prototype) : uc_prototype :=
  let rootscope := uc_protoref_new xjs_new_object globals in
  set_jso rootscope (json_object_object_add (jso rootscope) "global" (jso globals)).

(** The code after the label [out] of [parse]. *)
Definition parse_out (rootscope : option uc_prototype) (w : world) : world :=
  let w := emit (Release the_vm) w in
  let w := emit (Release the_globals) w in
  match rootscope with
  | Some _ => emit (Release the_rootscope) w
  | None => w
  end.

Definition parse (fuel : nat) (config : uc_parse_config) (src : uc_source)
    (shebang : bool) (env modules : json) (w : world) : outcome (Z * world) :=
  let globals := uc_prototype_new None in
  let w := emit Vm_init w in
  src <- (if shebang then skip_shebang fuel src else Ret src) ;;
  let w := emit (Compile config src) w in
  match uc_compile config src with
  | inr err =>
      let w := emit (Print (Compile_error err)) w in
      Ret (2, parse_out None w)
  | inl entry =>
      let globals := build_globals globals env in
      let rootscope := build_rootscope globals in
      let w := emit (Execute rootscope modules) w in
      let rc := uc_vm_execute entry rootscope modules in
      let rc := if rc =? 0 then 0 else 1 in
      Ret (rc, parse_out (Some rootscope) w)
  end.

(** *** read_stdin *)

Definition buffer_of (ptr : option (list Z)) : list Z :=
  match ptr with Some b => b | None => [] end.

(** The [while (true)] loop of [read_stdin]: [ptr] is [*ptr] (None when
    NULL) and holds [tlen] bytes. *)
Fixpoint read_stdin_loop (fuel : nat) (ptr : option (list Z)) (tlen : nat) (w : world)
  : outcome (option (list Z) * nat * world) :=
  match fuel with
  | O => Out_of_fuel
  | S fuel' =>
      let (buf, f') := fread chunk_size (stdin_stream w) in
      let rlen := List.length buf in
      let w := emit (Fread_stdin rlen) (set_stdin f' w) in
      if (rlen =? 0)%nat then Ret (ptr, tlen, w)
      else
        (* xrealloc( *ptr, tlen + rlen); memcpy( *ptr + tlen, buf, rlen) *)
        let ptr := Some (firstn tlen (buffer_of ptr) ++ buf) in
        read_stdin_loop fuel' ptr (tlen + rlen)%nat w
  end.

(** Returns the source (None for NULL) and the new [*ptr]. *)
Definition read_stdin (ptr : option (list Z)) (w : world)
  : outcome (option uc_source * option (list Z) * world) :=
  match ptr with
  | Some _ =>
      let w := emit (Print Stdin_only_once) w in
      let w := set_errno EINVAL w in
      Ret (None, ptr, w)
  | None =>
      '(ptr, tlen, w) <-
        read_stdin_loop (S (List.length (unread (stdin_stream w)))) ptr 0%nat w ;;
      Ret (Some (uc_source_new_buffer "[stdin]" (buffer_of ptr) tlen), ptr, w)
  end.

(** *** parse_envfile *)

(** The [while (true)] loop of [parse_envfile].  [err] is None until the
    first assignment to the local variable [err]. *)
Fixpoint parse_envfile_loop (fuel : nat) (tok : tok_state tokener) (f : FILE)
    (rv : json) (err : option json_tokener_error)
  : outcome (json * option json_tokener_error * FILE) :=
  match fuel with
  | O => Out_of_fuel
  | S fuel' =>
      let (buf, f') := fread chunk_size f in
      if (List.length buf =? 0)%nat then Ret (rv, err, f')
      else
        let (rv, tok) := json_tokener_parse_ex tokener tok buf in
        let e := json_tokener_get_error tokener tok in
        if tokener_error_eqb e json_tokener_continue
        then parse_envfile_loop fuel' tok f' rv (Some e)
        else Ret (rv, Some e, f')
  end.

Definition parse_envfile (f : FILE) (w : world) : outcome (json * world) :=
  '(rv, err, _) <-
    parse_envfile_loop (S (List.length (unread f))) (xjs_new_tokener tokener) f Jnull None ;;
  match err with
  | None => Undefined             (* [err] is read but was never assigned *)
  | Some e =>
      if negb (tokener_error_eqb e json_tokener_success) || negb (is_object rv)
      then
        let w := emit (Release (the_value rv)) w in
        let w := emit (Release the_tokener) w in
        Ret (Jnull, w)
      else
        Ret (rv, emit (Release the_tokener) w)
  end.

(** *** main *)

(** The local variables of [main] that outlive one option. *)
Record locals : Type := mk_locals {
  env : json;
  modules : json;
  source : option uc_source;
  stdin_buf : option (list Z);         (* char *stdin *)
  config : uc_parse_config
}.

Definition with_env (l : locals) (e : json) : locals :=
  mk_locals e (modules l) (source l) (stdin_buf l) (config l).
Definition with_modules (l : locals) (m : json) : locals :=
  mk_locals (env l) m (source l) (stdin_buf l) (config l).
Definition with_source (l : locals) (s : option uc_source) : locals :=
  mk_locals (env l) (modules l) s (stdin_buf l) (config l).
Definition with_stdin_buf (l : locals) (b : option (list Z)) : locals :=
  mk_locals (env l) (modules l) (source l) b (config l).
Definition with_config (l : locals) (c : uc_parse_config) : locals :=
  mk_locals (env l) (modules l) (source l) (stdin_buf l) c.

(** After one option: go on with the next one, or [goto out] with [rv]. *)
Inductive flow : Type :=
| Next (l : locals)
| Goto_out (l : locals) (rv : Z).

(** [strchr(s, '=')]: the text before and after the first '='. *)
Fixpoint strchr_eq (s : string) : option (string * string) :=
  match s with
  | EmptyString => None
  | String a rest =>
      if Ascii.eqb a "="%char then Some (EmptyString, rest)
      else match strchr_eq rest with
           | Some (pre, post) => Some (String a pre, post)
           | None => None
           end
  end.

(** [c = strchr(optarg, '='); if (c) *c++ = 0; else c = optarg;]
    Result: whether [c > optarg], the string [optarg] now reads as, and [c]. *)
Definition split_optarg (optarg : string) : bool * string * string :=
  match strchr_eq optarg with
  | Some (pre, post) => (true, pre, post)
  | None => (false, optarg, optarg)
  end.

(** An addition made through [p] when [p] is the child stored in [env]
    under [prefix]: the child is shared, so [env] sees it. *)
Definition add_through_child (env : json) (prefix k : string) (v : json) : json :=
  match json_object_object_get env prefix with
  | Some child => json_object_object_add env prefix (json_object_object_add child k v)
  | None => env
  end.

(** Lines 338-349: merge the parsed object [o] into [env]. *)
Definition merge_env (env : json) (c_gt_optarg : bool) (optarg : string) (o : json) : json :=
  let env := if is_null env then xjs_new_object else env in
  if c_gt_optarg && negb (String.eqb optarg "") then
    let p := xjs_new_object in
    let env := json_object_object_add env optarg p in
    fold_left (fun e kv => add_through_child e optarg (fst kv) (snd kv)) (members_of o) env
  else
    add_all env (members_of o).

(** Lines 326-353, shared by -e and -E once [envfile] is open. *)
Definition merge_request (opt : ascii) (c_gt_optarg : bool) (optarg : string)
    (envfile : uc_source) (l : locals) (w : world) : outcome (flow * world) :=
  '(o, w) <- parse_envfile (fp envfile) w ;;
  let w := emit (Release the_envfile) w in
  if is_null o then
    let w := emit (Print (Invalid_json_option opt)) w in
    Ret (Goto_out l 1, w)
  else
    let l := with_env l (merge_env (env l) c_gt_optarg optarg o) in
    let w := emit (Release (the_value o)) w in
    Ret (Next l, w).

(** One iteration of the [getopt] loop. *)
Definition option_step (o : cli_opt) (l : locals) (w : world) : outcome (flow * world) :=
  match o with
  | Opt_h =>
      Ret (Goto_out l 0, emit (Print Usage) w)
  | Opt_i optarg =>
      let w := match source l with
               | Some _ => emit (Print Options_exclusive) w
               | None => w
               end in
      '(src, l, w) <-
        (if String.eqb optarg "-" then
           '(src, buf, w) <- read_stdin (stdin_buf l) w ;;
           Ret (src, with_stdin_buf l buf, w)
         else
           Ret (uc_source_new_file optarg,
                l,
                match uc_source_new_file optarg with
                | Some _ => w
                | None => set_errno E_fopen w
                end)) ;;
      let l := with_source l src in
      match src with
      | None => Ret (Goto_out l 1, emit (Print (Failed_to_open optarg (errno w))) w)
      | Some _ => Ret (Next l, w)
      end
  | Opt_l =>
      let c := config l in
      Ret (Next (with_config l (mk_config (strict_declarations c) false (trim_blocks c))), w)
  | Opt_r =>
      let c := config l in
      Ret (Next (with_config l (mk_config (strict_declarations c) (lstrip_blocks c) false)), w)
  | Opt_s optarg =>
      let w := match source l with
               | Some _ => emit (Print Options_exclusive) w
               | None => w
               end in
      let src := uc_source_new_buffer "[-s argument]" (bytes_of_string optarg)
                                      (String.length optarg) in
      Ret (Next (with_source l (Some src)), w)
  | Opt_S =>
      let c := config l in
      Ret (Next (with_config l (mk_config true (lstrip_blocks c) (trim_blocks c))), w)
  | Opt_e optarg =>
      let '(c_gt_optarg, optarg, c) := split_optarg optarg in
      let envfile := uc_source_new_buffer "[-e argument]" (bytes_of_string c)
                                          (String.length c) in
      (* falls through to case 'E' with envfile set *)
      merge_request "e"%char c_gt_optarg optarg envfile l w
  | Opt_E optarg =>
      let '(c_gt_optarg, optarg, c) := split_optarg optarg in
      '(envfile, l, w) <-
        (if String.eqb c "-" then
           '(src, buf, w) <- read_stdin (stdin_buf l) w ;;
           Ret (src, with_stdin_buf l buf, w)
         else
           Ret (uc_source_new_file c,
                l,
                match uc_source_new_file c with
                | Some _ => w
                | None => set_errno E_fopen w
                end)) ;;
      match envfile with
      | None => Ret (Goto_out l 1, emit (Print (Failed_to_open c (errno w))) w)
      | Some envfile => merge_request "E"%char c_gt_optarg optarg envfile l w
      end
  | Opt_m optarg =>
      let m := if is_null (modules l) then xjs_new_array else modules l in
      Ret (Next (with_modules l (json_object_array_add m (Jstring optarg))), w)
  | Opt_other =>
      Ret (Next l, w)
  end.

(** [while ((opt = getopt(...)) != -1) switch (opt) ...] *)
Fixpoint getopt_loop (os : list cli_opt) (l : locals) (w : world) : outcome (flow * world) :=
  match os with
  | [] => Ret (Next l, w)
  | o :: os' =>
      '(fl, w) <- option_step o l w ;;
      match fl with
      | Next l => getopt_loop os' l w
      | Goto_out l rv => Ret (Goto_out l rv, w)
      end
  end.

(** The code after the label [out] of [main]. *)
Definition main_out (w : world) : world :=
  emit (Release the_source) (emit (Release the_env) (emit (Release the_modules) w)).

Definition initial_locals : locals :=
  mk_locals Jnull Jnull None None (mk_config false true true).

(** Lines 364-382: pick the positional operand when no source was set,
    then hand over to [parse]. *)
Definition resolve_and_parse (fuel : nat) (operand : option string) (l : locals) (w : world)
  : outcome (Z * world) :=
  match source l, operand with
  | None, Some path =>
      match uc_source_new_file path with
      | None =>
          Ret (1, emit (Print (Failed_to_open path E_fopen)) (set_errno E_fopen w))
      | Some src =>
          (* shebang = true *)
          parse fuel (config l) src true (env l) (modules l) w
      end
  | None, None =>
      Ret (1, emit (Print Source_required) w)
  | Some src, _ =>
      parse fuel (config l) src false (env l) (modules l) w
  end.

Definition main (fuel : nat) (argv : cmdline) (w : world) : outcome (Z * world) :=
  if argc argv =? 1 then
    Ret (0, main_out (emit (Print Usage) w))
  else
    '(fl, w) <- getopt_loop (opts argv) initial_locals w ;;
    match fl with
    | Goto_out _ rv => Ret (rv, main_out w)
    | Next l =>
        '(rv, w) <- resolve_and_parse fuel (operand argv) l w ;;
        Ret (rv, main_out w)
    end.

End Program.

End Ucode.

(* ===================================================================== *)
(** ** A reference instance of the collaborators

    A small tokener for a JSON subset (objects, arrays, strings without
    escapes, integers, true/false/null) that buffers its input, and a
    compiler and virtual machine that only record what they are given.
    They serve to run the model on concrete command lines. *)
(* ===================================================================== *)

Module Reference.
Import Stdio Json Ucode.

Inductive presult (A : Type) : Type :=
| P_done (a : A) (rest : list Z)
| P_more
| P_bad.
Arguments P_done {A} a rest.
Arguments P_more {A}.
Arguments P_bad {A}.

Definition is_ws (c : Z) : bool :=
  (c =? 32) || (c =? 9) || (c =? 10) || (c =? 13).

Fixpoint skip_ws (s : list Z) : list Z :=
  match s with
  | c :: r => if is_ws c then skip_ws r else s
  | [] => []
  end.

Definition ascii_of_byte (c : Z) : ascii := ascii_of_N (Z.to_N c).

(** The text of a string after its opening quote. *)
Fixpoint pstring (s : list Z) (acc : string) : presult string :=
  match s with
  | [] => P_more
  | c :: r =>
      if c =? 34 then P_done acc r
      else if c =? 92 then P_bad
      else pstring r (acc ++ String (ascii_of_byte c) "")%string
  end.

Definition is_digit (c : Z) : bool := (48 <=? c) && (c <=? 57).

Fixpoint pdigits (s : list Z) (acc : Z) : presult Z :=
  match s with
  | [] => P_more
  | c :: r => if is_digit c then pdigits r (10 * acc + (c - 48)) else P_done acc s
  end.

Fixpoint pliteral (lit s : list Z) : presult unit :=
  match lit, s with
  | [], _ => P_done tt s
  | _ :: _, [] => P_more
  | a :: lit', c :: r => if a =? c then pliteral lit' r else P_bad
  end.

Inductive expect : Type := First_member | Member | Separator.

Fixpoint pvalue (fuel : nat) (s : list Z) : presult json :=
  match fuel with
  | O => P_bad
  | S f =>
      match skip_ws s with
      | [] => P_more
      | c :: r =>
          if c =? 123 then pmembers f r (Jobject []) First_member
          else if c =? 91 then pelements f r (Jarray []) First_member
          else if c =? 34 then
            match pstring r "" with
            | P_done t r' => P_done (Jstring t) r'
            | P_more => P_more
            | P_bad => P_bad
            end
          else if c =? 45 then
            match r with
            | [] => P_more
            | d :: _ =>
                if is_digit d then
                  match pdigits r 0 with
                  | P_done n r' => P_done (Jint (- n)) r'
                  | P_more => P_more
                  | P_bad => P_bad
                  end
                else P_bad
            end
          else if is_digit c then
            match pdigits (c :: r) 0 with
            | P_done n r' => P_done (Jint n) r'
            | P_more => P_more
            | P_bad => P_bad
            end
          else if c =? 116 then
            match pliteral (bytes_of_string "rue") r with
            | P_done _ r' => P_done (Jboolean true) r'
            | P_more => P_more
            | P_bad => P_bad
            end
          else if c =? 102 then
            match pliteral (bytes_of_string "alse") r with
            | P_done _ r' => P_done (Jboolean false) r'
            | P_more => P_more
            | P_bad => P_bad
            end
          else if c =? 110 then
            match pliteral (bytes_of_string "ull") r with
            | P_done _ r' => P_done Jnull r'
            | P_more => P_more
            | P_bad => P_bad
            end
          else P_bad
      end
  end

with pmembers (fuel : nat) (s : list Z) (acc : json) (e : expect) : presult json :=
  match fuel with
  | O => P_bad
  | S f =>
      match skip_ws s with
      | [] => P_more
      | c :: r =>
          match e with
          | Separator =>
              if c =? 44 then pmembers f r acc Member
              else if c =? 125 then P_done acc r
              else P_bad
          | _ =>
              if (c =? 125) && (match e with First_member => true | _ => false end)
              then P_done acc r
              else if c =? 34 then
                match pstring r "" with
                | P_done k r1 =>
                    match skip_ws r1 with
                    | [] => P_more
                    | c1 :: r2 =>
                        if c1 =? 58 then
                          match pvalue f r2 with
                          | P_done v r3 =>
                              pmembers f r3 (json_object_object_add acc k v) Separator
                          | P_more => P_more
                          | P_bad => P_bad
                          end
                        else P_bad
                    end
                | P_more => P_more
                | P_bad => P_bad
                end
              else P_bad
          end
      end
  end

with pelements (fuel : nat) (s : list Z) (acc : json) (e : expect) : presult json :=
  match fuel with
  | O => P_bad
  | S f =>
      match skip_ws s with
      | [] => P_more
      | c :: r =>
          match e with
          | Separator =>
              if c =? 44 then pelements f r acc Member
              else if c =? 93 then P_done acc r
              else P_bad
          | _ =>
              if (c =? 93) && (match e with First_member => true | _ => false end)
              then P_done acc r
              else
                match pvalue f (c :: r) with
                | P_done v r1 => pelements f r1 (json_object_array_add acc v) Separator
                | P_more => P_more
                | P_bad => P_bad
                end
          end
      end
  end.

(** Tokener state: the bytes received so far and the last error code. *)
Definition ref_state : Type := list Z * json_tokener_error.

Definition ref_parse_ex (tok : ref_state) (chunk : list Z) : json * ref_state :=
  let buf := fst tok ++ chunk in
  match pvalue (2 * List.length buf + 2) buf with
  | P_done v _ => (v, (buf, json_tokener_success))
  | P_more => (Jnull, (buf, json_tokener_continue))
  | P_bad => (Jnull, (buf, json_tokener_error_parse))
  end.

Definition ref_tokener : json_tokener :=
  mk_tokener ref_state ([], json_tokener_success) ref_parse_ex snd.

(** A compiler that rejects text starting with '?', and a virtual machine
    that reports failure for text starting with '!'. *)
Definition ref_compile (config : uc_parse_config) (src : uc_source) : uc_source + string :=
  match unread (fp src) with
  | 63 :: _ => inr "Syntax error"
  | _ => inl src
  end.

Definition ref_execute (entry : uc_source) (rootscope : uc_prototype) (modules : json) : Z :=
  match unread (fp entry) with
  | 33 :: _ => 255
  | _ => 0
  end.

Definition ref_functions : list (string * json) :=
  [("print", Jcfunction "print"); ("length", Jcfunction "length")].

Definition ref_search_path : string := "/usr/lib/ucode/*.so:/usr/share/ucode/*.uc".

Definition script_with_shebang : list Z :=
  bytes_of_string "#!/x" ++ [10] ++ bytes_of_string "BODY".

Definition ref_files (path : string) : option (list Z) :=
  if String.eqb path "script.uc" then Some script_with_shebang
  else if String.eqb path "plain.uc" then Some (bytes_of_string "no-shebang")
  else if String.eqb path "env.json" then Some (bytes_of_string "{}")
  else if String.eqb path "ff.uc" then Some [255; 97]
  else if String.eqb path "a.uc" then Some [97]
  else if String.eqb path "noeol.uc" then Some (bytes_of_string "#!/x")
  else if String.eqb path "ffline.uc" then Some ([35; 33; 255] ++ bytes_of_string "x" ++ [10; 66])
  else None.

Definition dq : string := String (ascii_of_nat 34) "".
(** [quoted s]: [s] between double quotes. *)
Definition quoted (s : string) : string := (dq ++ s ++ dq)%string.

Definition world0 (input : list Z) : world := mk_world (mkFILE input) E_fopen [].

Definition ref_main (char_signed : bool) (fuel : nat) (argv : cmdline) (w : world) :=
  main char_signed ref_search_path ref_tokener ref_functions ref_files
       uc_source ref_compile ref_execute fuel argv w.

Definition ref_parse (char_signed : bool) (fuel : nat) (config : uc_parse_config)
    (src : uc_source) (shebang : bool) (env modules : json) (w : world) :=
  parse char_signed ref_search_path ref_functions uc_source ref_compile ref_execute
        fuel config src shebang env modules w.

Definition config0 : uc_parse_config := mk_config false true true.

Definition inline_source (text : string) : uc_source :=
  uc_source_new_buffer "[-s argument]" (bytes_of_string text) (String.length text).

Definition ref_getopt_loop (os : list cli_opt) (l : locals) (w : world) :=
  getopt_loop ref_tokener ref_files os l w.

(** The value of a run that returned. *)
Definition result_of {A : Type} (o : outcome A) (default : A) : A :=
  match o with Ret a => a | _ => default end.


(** The state of [main] after [-E -] has captured [{}] from standard input. *)
Definition after_capture : flow * world :=
  result_of (ref_getopt_loop [Opt_E "-"] initial_locals (world0 (bytes_of_string "{}")))
            (Next initial_locals, world0 []).

End Reference.

(* ===================================================================== *)
(** ** Vocabulary of the specification *)
(* ===================================================================== *)

Module Spec.
Import Stdio Json Ucode.

(** The character class [[A-Za-z0-9_]]. *)
Definition is_ident_char (a : ascii) : bool :=
  let c := byte_of_ascii a in
  ((48 <=? c) && (c <=? 57)) || ((65 <=? c) && (c <=? 90)) ||
  ((97 <=? c) && (c <=? 122)) || (c =? 95).

Fixpoint all_ident_chars (s : string) : bool :=
  match s with
  | EmptyString => true
  | String a rest => is_ident_char a && all_ident_chars rest
  end.

(** The pattern [[A-Za-z0-9_]+]: at least one character, all in the class. *)
Definition matches_ident (s : string) : bool :=
  negb (String.eqb s "") && all_ident_chars s.

(** What the sanitizer does to one character, in the spec's words. *)
Definition rewrite_char (a : ascii) : ascii :=
  if is_ident_char a then a else "_"%char.

Fixpoint rewrite_key (s : string) : string :=
  match s with
  | EmptyString => EmptyString
  | String a rest => String (rewrite_char a) (rewrite_key rest)
  end.

(** The resources released along a trace, in order. *)
Fixpoint releases (tr : list event) : list resource :=
  match tr with
  | [] => []
  | Release r :: rest => r :: releases rest
  | _ :: rest => releases rest
  end.

(** The number of [fread] calls on standard input along a trace. *)
Fixpoint stdin_reads (tr : list event) : nat :=
  match tr with
  | [] => O
  | Fread_stdin _ :: rest => S (stdin_reads rest)
  | _ :: rest => stdin_reads rest
  end.

(** The sources handed to the compiler along a trace. *)
Fixpoint compiled (tr : list event) : list uc_source :=
  match tr with
  | [] => []
  | Compile _ src :: rest => src :: compiled rest
  | _ :: rest => compiled rest
  end.

(** The events of [w'] that [w] did not have yet. *)
Definition new_events (w w' : world) : list event :=
  skipn (List.length (trace w)) (trace w').

Definition flow_locals (fl : flow) : locals :=
  match fl with Next l => l | Goto_out l _ => l end.

(** [quiet w w']: going from [w] to [w'] left standard input alone. *)
Definition quiet (w w' : world) : Prop :=
  stdin_stream w' = stdin_stream w /\ stdin_reads (trace w') = stdin_reads (trace w).

(** A byte of a shebang line: neither the newline nor 0xFF. *)
Definition line_byte (b : Z) : Prop := 0 <= b < 255 /\ b <> 10.

(** The configuration object is NULL or an object. *)
Definition env_ok (env : json) : bool := is_null env || is_object env.

(** The last [-i] or [-s] among the options, if there is one. *)
Fixpoint last_source_option (os : list cli_opt) : option cli_opt :=
  match os with
  | [] => None
  | o :: rest =>
      match last_source_option rest with
      | Some o' => Some o'
      | None => match o with
                | Opt_i _ | Opt_s _ => Some o
                | _ => None
                end
      end
  end.

(** [s] is the source that the option [o] produces: the text of [-s], the
    file of [-i path], the captured standard input of [-i -]. *)
Definition source_of_option (file_system : string -> option (list Z))
    (o : cli_opt) (s : option uc_source) : Prop :=
  match o with
  | Opt_s text =>
      s = Some (uc_source_new_buffer "[-s argument]" (bytes_of_string text)
                                     (String.length text))
  | Opt_i path =>
      if String.eqb path "-"
      then exists bytes, s = Some (mk_source "[stdin]" (mkFILE bytes) 0)
      else s <> None /\ s = uc_source_new_file file_system path
  | _ => True
  end.

End Spec.

(* ===================================================================== *)
(** ** Derived notions used in further statements *)
(* ===================================================================== *)

Module Derived.
Import Stdio Json Ucode Spec.

(** [s] holds no [a]. *)
Definition lacks (a : ascii) (s : string) : Prop :=
  ~ In a (list_ascii_of_string s).

Fixpoint count_char (a : ascii) (s : string) : nat :=
  match s with
  | EmptyString => O
  | String c rest => ((if Ascii.eqb c a then 1 else 0) + count_char a rest)%nat
  end.

(** The value of the last member of [ms] under key [k]. *)
Fixpoint last_value (ms : list (string * json)) (k : string) : option json :=
  match ms with
  | [] => None
  | (k', v) :: rest =>
      match last_value rest k with
      | Some v' => Some v'
      | None => if String.eqb k' k then Some v else None
      end
  end.

(** The members of the configuration object under their sanitized names. *)
Definition sanitized_members (char_signed : bool) (env : json) : list (string * json) :=
  map (fun kv => (sanitize char_signed (fst kv), snd kv)) (members_of env).

Definition is_array (v : json) : bool :=
  match v with Jarray _ => true | _ => false end.

(** The module list is NULL or an array. *)
Definition modules_ok (m : json) : bool := is_null m || is_array m.

(** The arguments of the [-m] options, in order. *)
Fixpoint module_args (os : list cli_opt) : list string :=
  match os with
  | [] => []
  | Opt_m a :: rest => a :: module_args rest
  | _ :: rest => module_args rest
  end.

Definition is_Opt_l (o : cli_opt) : bool := match o with Opt_l => true | _ => false end.
Definition is_Opt_r (o : cli_opt) : bool := match o with Opt_r => true | _ => false end.
Definition is_Opt_S (o : cli_opt) : bool := match o with Opt_S => true | _ => false end.

(** The option asks for standard input: [-i -], or [-E] whose path is [-]. *)
Definition wants_stdin (o : cli_opt) : bool :=
  match o with
  | Opt_i a => String.eqb a "-"
  | Opt_E a => String.eqb (snd (split_optarg a)) "-"
  | _ => false
  end.

(** The events the option loop can produce: diagnostics other than the
    compiler's, reads of standard input, and the releases of
    [parse_envfile] and of the configuration sources. *)
Definition option_stage_event (e : event) : bool :=
  match e with
  | Print (Compile_error _) => false
  | Print _ => true
  | Fread_stdin _ => true
  | Release (the_value _) | Release the_tokener | Release the_envfile => true
  | _ => false
  end.

(** The diagnostics of the compiler along a trace. *)
Fixpoint compile_errors (tr : list event) : list string :=
  match tr with
  | [] => []
  | Print (Compile_error msg) :: rest => msg :: compile_errors rest
  | _ :: rest => compile_errors rest
  end.

(** The runs of the virtual machine along a trace. *)
Fixpoint executions (tr : list event) : nat :=
  match tr with
  | [] => O
  | Execute _ _ :: rest => S (executions rest)
  | _ :: rest => executions rest
  end.

(** The sizes of the reads of standard input along a trace. *)
Fixpoint stdin_read_sizes (tr : list event) : list nat :=
  match tr with
  | [] => []
  | Fread_stdin n :: rest => n :: stdin_read_sizes rest
  | _ :: rest => stdin_read_sizes rest
  end.

(** [grows P w w']: [w'] has the events of [w] followed by new ones, all
    of which satisfy [P]. *)
Definition grows (P : event -> bool) (w w' : world) : Prop :=
  exists tr, trace w' = trace w ++ tr /\ forallb P tr = true.

Definition array_items (v : json) : list json :=
  match v with Jarray l => l | _ => [] end.

(** What one option does to the module list and to the parse flags. *)
Definition modules_after (o : cli_opt) (m : json) : json :=
  match o with
  | Opt_m a => json_object_array_add (if is_null m then xjs_new_array else m) (Jstring a)
  | _ => m
  end.

Definition config_after (o : cli_opt) (c : uc_parse_config) : uc_parse_config :=
  match o with
  | Opt_l => mk_config (strict_declarations c) false (trim_blocks c)
  | Opt_r => mk_config (strict_declarations c) (lstrip_blocks c) false
  | Opt_S => mk_config true (lstrip_blocks c) (trim_blocks c)
  | _ => c
  end.

(** The events after the option loop for a result [rv] of [main]: the
    diagnostic of a source that is missing or cannot be opened, or the
    events of a failed compilation, or those of a run. *)
Inductive driver_events (rv : Z) : list event -> Prop :=
| driver_no_source :
    rv = 1 -> driver_events rv [Print Source_required]
| driver_open_failed path e :
    rv = 1 -> driver_events rv [Print (Failed_to_open path e)]
| driver_compile_failed config src msg :
    rv = 2 ->
    driver_events rv [Vm_init; Compile config src; Print (Compile_error msg);
                      Release the_vm; Release the_globals]
| driver_ran config src rootscope modules :
    rv = 0 \/ rv = 1 ->
    driver_events rv [Vm_init; Compile config src; Execute rootscope modules;
                      Release the_vm; Release the_globals; Release the_rootscope].

End Derived.

(* ===================================================================== *)
(** ** Properties *)
(* ===================================================================== *)

Import Stdio Json Ucode Spec Derived.

(** *** Facts about streams and plain [char] *)

Lemma fread_length n fp :
  (length (unread (snd (fread n fp))) = length (unread fp) - n)%nat.
Proof. unfold fread; simpl. apply length_skipn. Qed.

Lemma fread_app n fp : fst (fread n fp) ++ unread (snd (fread n fp)) = unread fp.
Proof. unfold fread; simpl. apply firstn_skipn. Qed.

Lemma fread_nil_iff n fp :
  fst (fread (S n) fp) = [] <-> unread fp = [].
Proof.
  unfold fread; simpl. destruct (unread fp); split; intro H; try reflexivity; discriminate.
Qed.

Lemma fread_empty n fp :
  (0 < n)%nat -> ((List.length (fst (fread n fp)) =? 0)%nat = true <-> unread fp = []).
Proof.
  intros Hn. unfold fread; simpl. destruct n; [lia|]. destruct (unread fp); simpl.
  - split; reflexivity.
  - split; discriminate.
Qed.

Lemma fread_progress n fp :
  (0 < n)%nat -> unread fp <> [] ->
  (List.length (unread (snd (fread n fp))) < List.length (unread fp))%nat.
Proof.
  intros Hn Hne. rewrite fread_length. destruct (unread fp); [contradiction|].
  cbn [List.length]. lia.
Qed.

Lemma to_char_byte_unsigned b : is_byte b -> to_char false b = b.
Proof. unfold to_char, is_byte; intros H; simpl. apply Z.mod_small; lia. Qed.

Lemma to_char_small sg b : 0 <= b < 128 -> to_char sg b = b.
Proof.
  unfold to_char; intros H. rewrite Z.mod_small by lia.
  destruct sg; simpl; [|reflexivity].
  destruct (128 <=? b) eqn:E; [apply Z.leb_le in E; lia | reflexivity].
Qed.

Lemma to_char_mod sg b : is_byte b -> (to_char sg b) mod 256 = b.
Proof.
  unfold to_char, is_byte; intros H. rewrite (Z.mod_small b) by lia.
  destruct (sg && (128 <=? b))%bool.
  - replace (b - 256) with (b + (-1) * 256) by lia.
    rewrite Z.mod_add by lia. apply Z.mod_small; lia.
  - apply Z.mod_small; lia.
Qed.

(** *** Facts about json objects *)

Lemma members_get_add_same m k v : members_get (members_add m k v) k = Some v.
Proof.
  induction m as [|[k' v'] m IH]; simpl.
  - now rewrite String.eqb_refl.
  - destruct (String.eqb k' k) eqn:E; simpl.
    + now rewrite String.eqb_refl.
    + now rewrite E.
Qed.

Lemma members_get_add_other m k k' v :
  k <> k' -> members_get (members_add m k v) k' = members_get m k'.
Proof.
  intros Hne. induction m as [|[k0 v0] m IH]; simpl.
  - destruct (String.eqb k k') eqn:E; [apply String.eqb_eq in E; congruence | reflexivity].
  - destruct (String.eqb k0 k) eqn:E; simpl.
    + apply String.eqb_eq in E; subst k0.
      destruct (String.eqb k k') eqn:E'; [apply String.eqb_eq in E'; congruence | reflexivity].
    + destruct (String.eqb k0 k'); [reflexivity | exact IH].
Qed.

Lemma get_add_same m k v :
  json_object_object_get (json_object_object_add (Jobject m) k v) k = Some v.
Proof. apply members_get_add_same. Qed.

Lemma get_add_other m k k' v :
  k <> k' ->
  json_object_object_get (json_object_object_add (Jobject m) k v) k' =
  json_object_object_get (Jobject m) k'.
Proof. apply members_get_add_other. Qed.

Lemma add_is_object o k v : is_object o = true -> is_object (json_object_object_add o k v) = true.
Proof. destruct o; simpl; auto. Qed.

Lemma add_all_is_object m : forall o, is_object o = true -> is_object (add_all o m) = true.
Proof.
  unfold add_all. induction m as [|kv m IH]; simpl; intros o H; auto.
  apply IH, add_is_object, H.
Qed.

Lemma get_add_all_not_in ms : forall m k,
  ~ In k (map fst ms) ->
  json_object_object_get (add_all (Jobject m) ms) k = json_object_object_get (Jobject m) k.
Proof.
  unfold add_all. induction ms as [|[k0 v0] ms IH]; simpl; intros m k Hk; [reflexivity|].
  rewrite IH by tauto.
  apply members_get_add_other. intro; subst; tauto.
Qed.

Lemma get_add_all_functional ms : forall m k v,
  In (k, v) ms ->
  (forall v', In (k, v') ms -> v' = v) ->
  json_object_object_get (add_all (Jobject m) ms) k = Some v.
Proof.
  unfold add_all. induction ms as [|[k0 v0] ms IH]; simpl; intros m k v Hin Hfun; [tauto|].
  destruct (in_dec string_dec k (map fst ms)) as [Hk|Hk].
  - apply in_map_iff in Hk. destruct Hk as [[k1 v1] [Hk1 Hin1]]. simpl in Hk1; subst k1.
    assert (v1 = v) by (apply Hfun; right; exact Hin1). subst v1.
    apply IH; [exact Hin1|]. intros v' Hv'. apply Hfun. right; exact Hv'.
  - destruct Hin as [Heq|Hin].
    + inversion Heq; subst k0 v0.
      change (json_object_object_get (add_all (Jobject (members_add m k v)) ms) k = Some v).
      rewrite get_add_all_not_in by exact Hk. apply members_get_add_same.
    + exfalso. apply Hk. apply in_map_iff. exists (k, v). split; [reflexivity | exact Hin].
Qed.

Lemma add_all_object m ms : exists m', add_all (Jobject m) ms = Jobject m'.
Proof.
  revert m. unfold add_all. induction ms as [|[k v] ms IH]; simpl; intro m.
  - now exists m.
  - apply IH.
Qed.

(** *** Configuration merge (main, lines 338-351) *)

Lemma members_add_add m k v1 v2 :
  members_add (members_add m k v1) k v2 = members_add m k v2.
Proof.
  induction m as [|[k0 v0] m IH]; simpl.
  - now rewrite String.eqb_refl.
  - destruct (String.eqb k0 k) eqn:E; simpl.
    + now rewrite String.eqb_refl.
    + rewrite E. now rewrite IH.
Qed.

Lemma members_add_present m k v :
  members_get m k = Some v -> members_add m k v = m.
Proof.
  induction m as [|[k0 v0] m IH]; simpl; [discriminate|].
  destruct (String.eqb k0 k) eqn:E.
  - apply String.eqb_eq in E. intros H; inversion H; subst; reflexivity.
  - intros H. now rewrite IH.
Qed.

Lemma fold_through_child ms : forall m child prefix,
  members_get m prefix = Some child ->
  fold_left (fun e kv => add_through_child e prefix (fst kv) (snd kv)) ms (Jobject m) =
  Jobject (members_add m prefix (add_all child ms)).
Proof.
  induction ms as [|[k v] ms IH]; simpl; intros m child prefix Hget.
  - now rewrite members_add_present.
  - unfold add_through_child at 2. unfold json_object_object_get; simpl. rewrite Hget.
    simpl. rewrite (IH _ (json_object_object_add child k v)).
    + now rewrite members_add_add.
    + apply members_get_add_same.
Qed.

(** With a non-empty prefix the merged request ends up, alone, in a new
    child stored under the prefix. *)
Lemma merge_env_prefixed env prefix o :
  env_ok env = true -> prefix <> "" ->
  merge_env env true prefix o =
  json_object_object_add (if is_null env then xjs_new_object else env) prefix
                         (add_all xjs_new_object (members_of o)).
Proof.
  intros Hok Hne. unfold merge_env.
  assert (E : String.eqb prefix "" = false) by (apply String.eqb_neq; exact Hne).
  rewrite E; simpl.
  assert (Hobj : exists m, (if is_null env then xjs_new_object else env) = Jobject m).
  { unfold xjs_new_object. destruct env; simpl in *; try discriminate; eauto. }
  destruct Hobj as [m Hm]. rewrite Hm. simpl.
  rewrite (fold_through_child _ _ xjs_new_object).
  - now rewrite members_add_add.
  - apply members_get_add_same.
Qed.

Lemma merge_env_ok env c_gt optarg o : env_ok env = true -> is_object (merge_env env c_gt optarg o) = true.
Proof.
  intros Hok.
  destruct (c_gt && negb (String.eqb optarg "")) eqn:E.
  - apply andb_true_iff in E. destruct E as [E1 E2]. subst c_gt.
    rewrite merge_env_prefixed; auto.
    + destruct env; simpl in *; try discriminate; reflexivity.
    + apply negb_true_iff in E2. now apply String.eqb_neq.
  - unfold merge_env. rewrite E. apply add_all_is_object.
    destruct env; simpl in *; try discriminate; reflexivity.
Qed.

(** C1 (as the code has it): two merge requests that name the same
    non-empty namespace prefix do not accumulate.  The second request
    stores a new child object under the prefix, so the final entry holds
    exactly the members of the second request; a key that only the first
    request had is gone. *)
Theorem merge_same_namespace_replaces :
  forall env prefix o1 o2,
    env_ok env = true -> prefix <> "" ->
    let env1 := merge_env env true prefix o1 in
    let env2 := merge_env env1 true prefix o2 in
    let child := add_all xjs_new_object (members_of o2) in
    json_object_object_get env2 prefix = Some child /\
    (forall k, ~ In k (map fst (members_of o2)) -> json_object_object_get child k = None) /\
    (forall k v, In (k, v) (members_of o2) ->
                 (forall v', In (k, v') (members_of o2) -> v' = v) ->
                 json_object_object_get child k = Some v).
Proof.
  intros env prefix o1 o2 Hok Hne env1 env2 child.
  assert (Hok1 : env_ok env1 = true).
  { unfold env_ok, env1. rewrite (merge_env_ok env true prefix o1 Hok). apply orb_true_r. }
  split; [|split].
  - unfold env2. rewrite merge_env_prefixed by assumption.
    assert (Hobj : exists m, (if is_null env1 then xjs_new_object else env1) = Jobject m).
    { pose proof (merge_env_ok env true prefix o1 Hok) as H. fold env1 in H.
      unfold xjs_new_object. destruct env1; simpl in *; try discriminate; eauto. }
    destruct Hobj as [m Hm]. rewrite Hm. apply get_add_same.
  - intros k Hk. unfold child, xjs_new_object. now rewrite get_add_all_not_in.
  - intros k v Hin Hfun. unfold child, xjs_new_object. now apply get_add_all_functional.
Qed.

Lemma merge_same_namespace_replaces_witness :
  let env2 := merge_env (merge_env Jnull true "a" (Jobject [("x", Jint 1)]))
                        true "a" (Jobject [("y", Jint 2)]) in
  json_object_object_get env2 "a" = Some (Jobject [("y", Jint 2)]).
Proof.
  refine (proj1 (merge_same_namespace_replaces Jnull "a" (Jobject [("x", Jint 1)])
                   (Jobject [("y", Jint 2)]) _ _)).
  - reflexivity.
  - discriminate.
Defined.

(** C1 (as stated) fails on [-e 'a={"x":1}' -e 'a={"y":2}']: after both
    options the entry [a] of the configuration object is [{"y":2}]; it has
    no member [x]. *)
Lemma namespace_merges_do_not_accumulate :
  exists l w,
    getopt_loop Reference.ref_tokener Reference.ref_files
      [Opt_e ("a={" ++ Reference.quoted "x" ++ ":1}")%string;
       Opt_e ("a={" ++ Reference.quoted "y" ++ ":2}")%string]
      initial_locals (Reference.world0 []) = Ret (Next l, w) /\
    json_object_object_get (env l) "a" = Some (Jobject [("y", Jint 2)]) /\
    ~ (exists child, json_object_object_get (env l) "a" = Some child /\
                     json_object_object_get child "x" = Some (Jint 1) /\
                     json_object_object_get child "y" = Some (Jint 2)).
Proof.
  eexists. eexists. split; [vm_compute; reflexivity|]. split; [reflexivity|].
  intros [child [H1 [H2 _]]]. vm_compute in H1. inversion H1; subst child.
  vm_compute in H2. discriminate.
Qed.

(** *** Globals scope (register_variable; parse, lines 134-150) *)

Section Scope_properties.

Variable char_signed : bool.
Variable LIB_SEARCH_PATH : string.
Variable functions : list (string * json).

Local Abbreviation sanitize := (Ucode.sanitize char_signed).
Local Abbreviation register_variable := (Ucode.register_variable char_signed).
Local Abbreviation build_globals := (Ucode.build_globals char_signed LIB_SEARCH_PATH functions).

Lemma sanitize_char_rewrite a : sanitize_char char_signed a = rewrite_char a.
Proof.
  destruct char_signed;
    destruct a as [[] [] [] [] [] [] [] []]; vm_compute; reflexivity.
Qed.

Lemma rewrite_char_ident a : is_ident_char (rewrite_char a) = true.
Proof. destruct a as [[] [] [] [] [] [] [] []]; vm_compute; reflexivity. Qed.

Lemma sanitize_rewrite key : sanitize key = rewrite_key key.
Proof.
  induction key as [|a key IH]; simpl; [reflexivity|].
  now rewrite sanitize_char_rewrite, IH.
Qed.

Lemma rewrite_key_ident key : all_ident_chars (rewrite_key key) = true.
Proof.
  induction key as [|a key IH]; simpl; [reflexivity|].
  now rewrite rewrite_char_ident, IH.
Qed.

Lemma rewrite_key_length key : String.length (rewrite_key key) = String.length key.
Proof. induction key as [|a key IH]; simpl; congruence. Qed.

Lemma rewrite_key_empty key : String.eqb (rewrite_key key) "" = String.eqb key "".
Proof. destruct key; reflexivity. Qed.

(** C8 (as the code has it): a configuration key is installed under the
    name obtained by rewriting every character outside [[A-Za-z0-9_]] to
    [_] and keeping the others; the name has the length of the key, so all
    its characters are in the class and it matches [[A-Za-z0-9_]+] exactly
    when the key is not empty (the empty key is installed under the empty
    name).  A later key with the same sanitized name overwrites the value. *)
Theorem register_variable_sanitizes :
  forall m p key val,
    let scope := mk_proto (Jobject m) p in
    let name := sanitize key in
    json_object_object_get (jso (register_variable scope key val)) name = Some val /\
    name = rewrite_key key /\
    all_ident_chars name = true /\
    String.length name = String.length key /\
    matches_ident name = negb (String.eqb key "") /\
    (forall key2 val2,
        sanitize key2 = name ->
        json_object_object_get
          (jso (register_variable (register_variable scope key val) key2 val2)) name
        = Some val2).
Proof.
  intros m p key val scope name. unfold name.
  repeat split.
  - apply members_get_add_same.
  - apply sanitize_rewrite.
  - rewrite sanitize_rewrite. apply rewrite_key_ident.
  - rewrite sanitize_rewrite. apply rewrite_key_length.
  - unfold matches_ident. rewrite sanitize_rewrite, rewrite_key_ident, rewrite_key_empty.
    apply andb_true_r.
  - intros key2 val2 H. unfold Ucode.register_variable; simpl. rewrite H.
    apply members_get_add_same.
Qed.

Lemma sanitize_1_bad : sanitize "1-bad" = "1_bad".
Proof. rewrite sanitize_rewrite. reflexivity. Qed.

Lemma register_variable_object g key val :
  is_object (jso g) = true -> is_object (jso (register_variable g key val)) = true.
Proof. destruct g as [j p]; simpl. apply add_is_object. Qed.

Lemma load_env_object env : forall g,
  is_object (jso g) = true -> is_object (jso (load_env char_signed g env)) = true.
Proof.
  unfold load_env. destruct (is_null env); [auto|].
  induction (members_of env) as [|kv ms IH]; simpl; intros g H; [exact H|].
  apply IH, register_variable_object, H.
Qed.

End Scope_properties.

(** *** Lookups after a run of additions *)

Lemma get_add_all_last ms : forall m k,
  json_object_object_get (add_all (Jobject m) ms) k =
  match last_value ms k with
  | Some v => Some v
  | None => members_get m k
  end.
Proof.
  unfold add_all. induction ms as [|[k0 v0] ms IH]; intros m k; [reflexivity|].
  cbn [fold_left fst snd json_object_object_add last_value]. rewrite IH.
  destruct (last_value ms k); [reflexivity|].
  destruct (String.eqb k0 k) eqn:E.
  - apply String.eqb_eq in E. subst. apply members_get_add_same.
  - apply members_get_add_other. apply String.eqb_neq. exact E.
Qed.

Lemma load_env_as_add_all sg env : forall m p,
  load_env sg (mk_proto (Jobject m) p) env =
  mk_proto (add_all (Jobject m) (sanitized_members sg env)) p.
Proof.
  intros m p. unfold load_env, sanitized_members.
  destruct (is_null env) eqn:E.
  - destruct env; try discriminate. reflexivity.
  - clear E. revert m. induction (members_of env) as [|[k v] ms IH]; intros m; [reflexivity|].
    cbn [fold_left map fst snd].
    change (register_variable sg (mk_proto (Jobject m) p) k v)
      with (mk_proto (Jobject (members_add m (sanitize sg k) v)) p).
    rewrite IH. reflexivity.
Qed.

Lemma last_value_in ms k v : last_value ms k = Some v -> In (k, v) ms.
Proof.
  induction ms as [|[k0 v0] ms IH]; simpl; [discriminate|].
  destruct (last_value ms k) as [v'|].
  - intros H. right. apply IH. exact H.
  - destruct (String.eqb k0 k) eqn:E; [|discriminate].
    apply String.eqb_eq in E. intros H. left. congruence.
Qed.

Lemma in_last_value ms k v : In (k, v) ms -> exists v', last_value ms k = Some v'.
Proof.
  induction ms as [|[k0 v0] ms IH]; simpl; [tauto|].
  intros [H|H].
  - inversion H; subst k0 v0. destruct (last_value ms k) as [v'|]; [now exists v'|].
    rewrite String.eqb_refl. now exists v.
  - destruct (IH H) as [v' Hv']. rewrite Hv'. now exists v'.
Qed.

(** The installer as the specification describes it: a name resolves to
    what the scope held before, and to the first table entry of that name
    otherwise. *)
Lemma get_install_all fns : forall m k,
  json_object_object_get (fold_left install_binding fns (Jobject m)) k =
  match members_get m k with
  | Some v => Some v
  | None => members_get fns k
  end.
Proof.
  induction fns as [|[k0 v0] fns IH]; intros m k.
  - cbn [fold_left members_get]. unfold json_object_object_get. cbn [members_of].
    destruct (members_get m k); reflexivity.
  - cbn [fold_left]. unfold install_binding at 2. cbn [fst snd].
    unfold json_object_object_get at 2. cbn [members_of members_get].
    destruct (members_get m k0) as [v1|] eqn:E0.
    + rewrite IH. destruct (members_get m k) eqn:Ek; [reflexivity|].
      destruct (String.eqb k0 k) eqn:E; [|reflexivity].
      apply String.eqb_eq in E. congruence.
    + cbn [json_object_object_add]. rewrite IH.
      destruct (String.eqb k0 k) eqn:E.
      * apply String.eqb_eq in E. subst k0. rewrite members_get_add_same, E0. reflexivity.
      * rewrite members_get_add_other by (apply String.eqb_neq; exact E). reflexivity.
Qed.

Lemma build_globals_lookup sg path fns env name :
  json_object_object_get
    (jso (build_globals sg path fns (uc_prototype_new None) env)) name =
  match last_value (sanitized_members sg env) name with
  | Some v => Some v
  | None =>
      if String.eqb "REQUIRE_SEARCH_PATH" name
      then Some (split_search_path path "" xjs_new_array)
      else members_get fns name
  end.
Proof.
  unfold build_globals, uc_lib_init, globals_init, uc_prototype_new, xjs_new_object.
  cbn [jso set_jso parent json_object_object_add members_add].
  unfold set_jso at 1. cbn [parent].
  rewrite load_env_as_add_all. cbn [jso].
  destruct (add_all_object [("REQUIRE_SEARCH_PATH", split_search_path path "" xjs_new_array)]
              (sanitized_members sg env)) as [m' Hm'].
  rewrite Hm'. rewrite get_install_all.
  change (members_get m' name) with (json_object_object_get (Jobject m') name).
  rewrite <- Hm'. rewrite get_add_all_last.
  destruct (last_value (sanitized_members sg env) name); [reflexivity|].
  cbn [members_get]. destruct (String.eqb "REQUIRE_SEARCH_PATH" name); reflexivity.
Qed.

Lemma configured_value sg env key val :
  In (key, val) (members_of env) ->
  exists key' val',
    In (key', val') (members_of env) /\
    sanitize sg key' = sanitize sg key /\
    last_value (sanitized_members sg env) (sanitize sg key) = Some val'.
Proof.
  intros Hin.
  assert (Hs : In (sanitize sg key, val) (sanitized_members sg env)).
  { unfold sanitized_members. apply in_map_iff. exists (key, val). split; [reflexivity|exact Hin]. }
  destruct (in_last_value _ _ _ Hs) as [v' Hv'].
  pose proof (last_value_in _ _ _ Hv') as Hin'.
  unfold sanitized_members in Hin'. apply in_map_iff in Hin'.
  destruct Hin' as [[k1 v1] [Heq Hin1]]. cbn [fst snd] in Heq.
  exists k1, v1. split; [exact Hin1|]. split; [congruence|]. congruence.
Qed.

(** C2: when the sanitized form of a configuration key equals the name of
    a standard-library binding, the globals scope built by [parse] holds a
    configuration value under that name: the value of the last
    configuration key with that sanitized form (of this key, when no other
    key shares it), not the library binding.  The collision is a real one:
    with no configuration the same name resolves to the library binding
    (unless it is REQUIRE_SEARCH_PATH, which [globals_init] binds). *)
Theorem configuration_value_wins_collision :
  forall char_signed path functions env key val f,
    In (key, val) (members_of env) ->
    In (sanitize char_signed key, f) functions ->
    let name := sanitize char_signed key in
    let globals := build_globals char_signed path functions (uc_prototype_new None) env in
    (exists key' val',
        In (key', val') (members_of env) /\
        sanitize char_signed key' = name /\
        last_value (sanitized_members char_signed env) name = Some val' /\
        json_object_object_get (jso globals) name = Some val') /\
    ((forall k v, In (k, v) (members_of env) -> sanitize char_signed k = name -> v = val) ->
        json_object_object_get (jso globals) name = Some val) /\
    (exists f0,
        In (name, f0) functions /\
        (name <> "REQUIRE_SEARCH_PATH" ->
         json_object_object_get
           (jso (build_globals char_signed path functions (uc_prototype_new None) Jnull)) name
         = Some f0)).
Proof.
  intros sg path fns env key val f Hin Hlib name globals.
  destruct (configured_value sg env key val Hin) as [k1 [v1 [Hin1 [Hs1 Hlast]]]].
  assert (Hget : json_object_object_get (jso globals) name = Some v1).
  { unfold globals. rewrite build_globals_lookup. fold name. unfold name. rewrite Hlast.
    reflexivity. }
  split; [|split].
  - exists k1, v1. repeat split; assumption.
  - intros Hall. rewrite Hget. f_equal. apply (Hall k1 v1 Hin1 Hs1).
  - assert (Hfirst : exists f0, members_get fns name = Some f0).
    { clear - Hlib. induction fns as [|[k0 v0] fns IH]; simpl in *; [tauto|].
      destruct (String.eqb k0 name) eqn:E; [now exists v0|].
      destruct Hlib as [H|H]; [|now apply IH].
      inversion H; subst. rewrite String.eqb_refl in E. discriminate. }
    destruct Hfirst as [f0 Hf0]. exists f0. split.
    + clear - Hf0. induction fns as [|[k0 v0] fns IH]; simpl in *; [discriminate|].
      destruct (String.eqb k0 name) eqn:E.
      * apply String.eqb_eq in E. left. congruence.
      * right. now apply IH.
    + intros Hne. rewrite build_globals_lookup. cbn [sanitized_members members_of map last_value].
      destruct (String.eqb "REQUIRE_SEARCH_PATH" name) eqn:E; [|exact Hf0].
      apply String.eqb_eq in E. congruence.
Qed.

Lemma configuration_value_wins_collision_witness :
  let env := Jobject [("print", Jint 1); ("a-b", Jint 2)] in
  let globals := build_globals true Reference.ref_search_path Reference.ref_functions
                   (uc_prototype_new None) env in
  In ("print", Jint 1) (members_of env) /\
  In (Ucode.sanitize true "print", Jcfunction "print") Reference.ref_functions /\
  json_object_object_get (jso globals) (Ucode.sanitize true "print") = Some (Jint 1).
Proof.
  intros env globals.
  assert (Hin : In ("print", Jint 1) (members_of env)) by (left; reflexivity).
  assert (Hlib : In (Ucode.sanitize true "print", Jcfunction "print") Reference.ref_functions)
    by (left; reflexivity).
  split; [exact Hin|]. split; [exact Hlib|].
  refine (proj1 (proj2 (configuration_value_wins_collision true Reference.ref_search_path
                          Reference.ref_functions env "print" (Jint 1) (Jcfunction "print")
                          Hin Hlib)) _).
  intros k v [H|[H|[]]] Hs.
  - inversion H. reflexivity.
  - inversion H; subst. vm_compute in Hs. discriminate Hs.
Defined.

(** C8 (as stated) fails on [-e '{"":1}']: the empty key is installed
    under the empty name, which does not match [[A-Za-z0-9_]+]. *)
Lemma empty_key_installed_under_empty_name :
  let globals := build_globals true Reference.ref_search_path Reference.ref_functions
                   (uc_prototype_new None) (Jobject [("", Jint 1)]) in
  Ucode.sanitize true "" = "" /\
  json_object_object_get (jso globals) "" = Some (Jint 1) /\
  matches_ident "" = false.
Proof. vm_compute. repeat split. Qed.

(** *** The execution driver (parse) *)

Lemma new_events_app w tr : skipn (List.length (trace w)) (trace w ++ tr) = tr.
Proof.
  rewrite skipn_app, skipn_all, Nat.sub_diag. reflexivity.
Qed.

Section Driver_properties.

Variable char_signed : bool.
Variable LIB_SEARCH_PATH : string.
Variable functions : list (string * json).
Variable uc_function : Type.
Variable uc_compile : uc_parse_config -> uc_source -> uc_function + string.
Variable uc_vm_execute : uc_function -> uc_prototype -> json -> Z.

Local Abbreviation parse :=
  (Ucode.parse char_signed LIB_SEARCH_PATH functions uc_function uc_compile uc_vm_execute).
Local Abbreviation build_globals := (Ucode.build_globals char_signed LIB_SEARCH_PATH functions).
Local Abbreviation skip_shebang := (Ucode.skip_shebang char_signed).
Local Abbreviation shebang_loop := (Ucode.shebang_loop char_signed).

(** Every run of [parse] that returns has one of two traces. *)
Lemma parse_trace fuel config src shebang env modules w rc w' :
  parse fuel config src shebang env modules w = Ret (rc, w') ->
  exists src',
    (if shebang then skip_shebang fuel src else Ret src) = Ret src' /\
    match uc_compile config src' with
    | inr err =>
        rc = 2 /\
        trace w' = trace w ++ [Vm_init; Compile config src'; Print (Compile_error err);
                               Release the_vm; Release the_globals]
    | inl entry =>
        let rootscope := build_rootscope (build_globals (uc_prototype_new None) env) in
        rc = (if uc_vm_execute entry rootscope modules =? 0 then 0 else 1) /\
        trace w' = trace w ++ [Vm_init; Compile config src'; Execute rootscope modules;
                               Release the_vm; Release the_globals; Release the_rootscope]
    end.
Proof.
  unfold Ucode.parse.
  destruct (if shebang then skip_shebang fuel src else Ret src) as [src'| |] eqn:Hs;
    simpl; try discriminate.
  intros H. exists src'. split; [reflexivity|].
  destruct (uc_compile config src') as [entry|err]; inversion H; subst; clear H;
    simpl; repeat rewrite <- app_assoc; simpl; auto.
Qed.

(** C3 (as the code has it): on every path of the execution driver that
    returns, the code after the label [out] releases the virtual-machine
    context first, then the globals scope object, then the root scope
    object when it was constructed (that is, when compilation succeeded);
    nothing else is released by the driver. *)
Theorem cleanup_releases_vm_then_globals_then_root :
  forall fuel config src shebang env modules w rc w',
    parse fuel config src shebang env modules w = Ret (rc, w') ->
    exists src',
      (if shebang then skip_shebang fuel src else Ret src) = Ret src' /\
      match uc_compile config src' with
      | inr _ => rc = 2 /\ releases (new_events w w') = [the_vm; the_globals]
      | inl _ => (rc = 0 \/ rc = 1) /\
                 releases (new_events w w') = [the_vm; the_globals; the_rootscope]
      end.
Proof.
  intros fuel config src shebang env modules w rc w' H.
  destruct (parse_trace _ _ _ _ _ _ _ _ _ H) as [src' [Hs Ht]].
  exists src'. split; [exact Hs|].
  unfold new_events.
  destruct (uc_compile config src') as [entry|err].
  - destruct Ht as [Hrc Ht]. rewrite Ht, new_events_app. split; [|reflexivity].
    rewrite Hrc. destruct (_ =? 0); auto.
  - destruct Ht as [Hrc Ht]. rewrite Ht, new_events_app. split; [exact Hrc|reflexivity].
Qed.

(** The shebang loop returns when plain [char] is signed. *)
Lemma shebang_loop_returns_signed : char_signed = true ->
  forall fuel f o, (List.length (unread f) < fuel)%nat ->
  exists f' o', shebang_loop fuel f o = Ret (f', o').
Proof.
  intros Hs. rewrite Hs.
  induction fuel as [|fuel IH]; intros f o Hlt; [lia|].
  simpl. unfold fgetc. destruct f as [[|b r]]; simpl in *.
  - vm_compute. eauto.
  - destruct (to_char true b =? EOF); [eauto|].
    destruct (to_char true b =? 10); [eauto|].
    apply IH. simpl. lia.
Qed.

(** With an unsigned plain [char] no value of [c] equals [EOF]: a shebang
    line without a newline keeps the loop running for ever. *)
Lemma shebang_loop_diverges_unsigned : char_signed = false ->
  forall fuel f o, Forall (fun b => b mod 256 <> 10) (unread f) ->
  shebang_loop fuel f o = Out_of_fuel.
Proof.
  intros Hs. rewrite Hs.
  induction fuel as [|fuel IH]; intros f o Hall; [reflexivity|].
  simpl. unfold fgetc. destruct f as [[|b r]]; simpl in *.
  - apply (IH (mkFILE []) (S o)). constructor.
  - inversion Hall as [|? ? Hb Hr]; subst.
    assert (Hc : to_char false b = b mod 256) by reflexivity.
    rewrite Hc.
    assert (0 <= b mod 256 < 256) by (apply Z.mod_pos_bound; lia).
    destruct (b mod 256 =? EOF) eqn:E1; [apply Z.eqb_eq in E1; unfold EOF in E1; lia|].
    destruct (b mod 256 =? 10) eqn:E2; [apply Z.eqb_eq in E2; contradiction|].
    apply IH. exact Hr.
Qed.

(** [parse] returns whenever the shebang loop does. *)
Lemma parse_returns fuel config src shebang env modules w :
  (shebang = false \/ (char_signed = true /\ (List.length (unread (fp src)) < fuel)%nat)) ->
  exists rc w', parse fuel config src shebang env modules w = Ret (rc, w').
Proof.
  intros H. unfold Ucode.parse.
  assert (Hs : exists src', (if shebang then skip_shebang fuel src else Ret src) = Ret src').
  { destruct H as [H|[Hsg Hlen]]; [rewrite H; eauto|].
    destruct shebang; [|eauto].
    unfold Ucode.skip_shebang, fgetc.
    destruct src as [name [[|b1 [|b2 r]]] o]; simpl in *.
    - rewrite Hsg. vm_compute. eauto.
    - destruct (_ && _).
      + destruct (shebang_loop_returns_signed Hsg fuel (mkFILE []) o) as [f' [o' E]].
        * simpl. lia.
        * rewrite E. simpl. eauto.
      + eauto.
    - destruct (_ && _).
      + destruct (shebang_loop_returns_signed Hsg fuel (mkFILE r) o) as [f' [o' E]].
        * simpl. lia.
        * rewrite E. simpl. eauto.
      + eauto. }
  destruct Hs as [src' Hs]. rewrite Hs. simpl.
  destruct (uc_compile config src'); eauto.
Qed.

End Driver_properties.

Lemma cleanup_releases_vm_then_globals_then_root_witness :
  let w := Reference.world0 [] in
  let src := Reference.inline_source "print(1)" in
  let r := Reference.result_of
             (Reference.ref_parse true 10 Reference.config0 src false Jnull Jnull w) (0, w) in
  exists src',
    Ret src = Ret src' /\
    match Reference.ref_compile Reference.config0 src' with
    | inr _ => fst r = 2 /\ releases (new_events w (snd r)) = [the_vm; the_globals]
    | inl _ => (fst r = 0 \/ fst r = 1) /\
               releases (new_events w (snd r)) = [the_vm; the_globals; the_rootscope]
    end.
Proof.
  intros w src r.
  apply (cleanup_releases_vm_then_globals_then_root true Reference.ref_search_path
           Reference.ref_functions uc_source Reference.ref_compile Reference.ref_execute
           10%nat Reference.config0 src false Jnull Jnull w (fst r) (snd r)).
  vm_compute. reflexivity.
Defined.

(** C3 (as stated) fails on a successful run of [-s 'print(1)']: the
    releases are the virtual machine, the globals, the root scope, in that
    order; the globals are not released first and the virtual machine is
    not released last. *)
Lemma cleanup_does_not_release_globals_first :
  exists rc w',
    Reference.ref_parse true 10 Reference.config0 (Reference.inline_source "print(1)")
                        false Jnull Jnull (Reference.world0 []) = Ret (rc, w') /\
    releases (trace w') = [the_vm; the_globals; the_rootscope] /\
    releases (trace w') <> [the_globals; the_rootscope; the_vm].
Proof.
  eexists. eexists. split; [vm_compute; reflexivity|].
  split; [reflexivity | discriminate].
Qed.

(** *** The shebang check (parse, lines 107-123) *)

Section Shebang_properties.

Variable char_signed : bool.

Local Abbreviation skip_shebang := (Ucode.skip_shebang char_signed).
Local Abbreviation shebang_loop := (Ucode.shebang_loop char_signed).

(** A byte other than 0xFF never reads as [EOF], and reads as itself
    against an ASCII constant. *)
Lemma to_char_not_EOF b : 0 <= b < 255 -> (to_char char_signed b =? EOF) = false.
Proof.
  intros H. apply Z.eqb_neq. unfold to_char, EOF. rewrite Z.mod_small by lia.
  destruct (char_signed && (128 <=? b)) eqn:E; [|lia].
  apply andb_true_iff in E. destruct E as [_ E]. apply Z.leb_le in E. lia.
Qed.

Lemma to_char_eqb_ascii b k :
  0 <= b < 256 -> 0 <= k < 128 -> (to_char char_signed b =? k) = (b =? k).
Proof.
  intros Hb Hk. unfold to_char. rewrite Z.mod_small by lia.
  destruct (char_signed && (128 <=? b)) eqn:E; [|reflexivity].
  apply andb_true_iff in E. destruct E as [_ E]. apply Z.leb_le in E.
  transitivity false; [apply Z.eqb_neq; lia | symmetry; apply Z.eqb_neq; lia].
Qed.

(** The loop discards a line and its newline and counts each of them. *)
Lemma shebang_loop_line line : forall fuel body o,
  Forall line_byte line -> (List.length line < fuel)%nat ->
  shebang_loop fuel (mkFILE (line ++ 10 :: body)) o =
  Ret (mkFILE body, (o + List.length line + 1)%nat).
Proof.
  induction line as [|b line IH]; intros fuel body o Hall Hlt.
  - destruct fuel; [simpl in Hlt; lia|]. simpl. unfold fgetc; simpl.
    rewrite to_char_not_EOF by lia. rewrite to_char_eqb_ascii by lia. simpl.
    f_equal. f_equal. lia.
  - destruct fuel; [simpl in Hlt; lia|]. inversion Hall as [|? ? [Hb Hn] Hr]; subst.
    simpl. unfold fgetc; simpl.
    rewrite to_char_not_EOF by lia. rewrite to_char_eqb_ascii by lia.
    destruct (b =? 10) eqn:E; [apply Z.eqb_eq in E; contradiction|].
    change (Ucode.shebang_loop char_signed fuel (mkFILE (line ++ 10 :: body)) (S o) =
            Ret (mkFILE body, (o + S (List.length line) + 1)%nat)).
    rewrite IH; [|exact Hr | simpl in Hlt; lia].
    f_equal. f_equal. lia.
Qed.

(** With a signed plain [char] a last line without a newline is discarded
    up to the end of input. *)
Lemma shebang_loop_end_of_input line : forall fuel o,
  char_signed = true ->
  Forall line_byte line -> (List.length line < fuel)%nat ->
  shebang_loop fuel (mkFILE line) o = Ret (mkFILE [], (o + List.length line)%nat).
Proof.
  induction line as [|b line IH]; intros fuel o Hs Hall Hlt.
  - destruct fuel; [simpl in Hlt; lia|]. rewrite Hs. simpl.
    f_equal. f_equal. lia.
  - destruct fuel; [simpl in Hlt; lia|]. apply Forall_cons_iff in Hall. destruct Hall as [[Hb Hn] Hr].
    simpl. unfold fgetc; simpl.
    rewrite to_char_not_EOF by lia. rewrite to_char_eqb_ascii by lia.
    destruct (b =? 10) eqn:E; [apply Z.eqb_eq in E; contradiction|].
    change (Ucode.shebang_loop char_signed fuel (mkFILE line) (S o) =
            Ret (mkFILE [], (o + S (List.length line))%nat)).
    rewrite IH; [|exact Hs | exact Hr | simpl in Hlt; lia].
    f_equal. f_equal. lia.
Qed.

(** A source that starts with [#!]: the rest of the line and its newline
    are discarded and the compiler is left with the body.  The offset base
    grows by the bytes read after the two marker bytes. *)
Lemma skip_shebang_line name line body o fuel :
  Forall line_byte line -> (List.length line < fuel)%nat ->
  skip_shebang fuel (mk_source name (mkFILE (35 :: 33 :: line ++ 10 :: body)) o) =
  Ret (mk_source name (mkFILE body) (o + List.length line + 1)%nat).
Proof.
  intros Hall Hlt. unfold Ucode.skip_shebang, fgetc; simpl.
  rewrite !to_char_eqb_ascii by lia. simpl.
  rewrite shebang_loop_line by assumption. reflexivity.
Qed.

(** A source of at least two bytes that does not start with [#!] and whose
    first two bytes are not 0xFF is left as it was. *)
Lemma skip_shebang_pushback name b1 b2 rest o fuel :
  0 <= b1 < 255 -> 0 <= b2 < 255 -> ~ (b1 = 35 /\ b2 = 33) ->
  skip_shebang fuel (mk_source name (mkFILE (b1 :: b2 :: rest)) o) =
  Ret (mk_source name (mkFILE (b1 :: b2 :: rest)) o).
Proof.
  intros H1 H2 Hne. unfold Ucode.skip_shebang, fgetc; simpl.
  rewrite !to_char_eqb_ascii by lia.
  destruct ((b1 =? 35) && (b2 =? 33)) eqn:E.
  - apply andb_true_iff in E. destruct E as [E1 E2].
    apply Z.eqb_eq in E1, E2. tauto.
  - unfold ungetc. rewrite !to_char_not_EOF by lia. simpl.
    rewrite !to_char_mod by (unfold is_byte; lia). reflexivity.
Qed.

End Shebang_properties.

(** The shebang check runs exactly for a source opened from the
    positional operand: an explicit source is parsed without it. *)
Lemma shebang_iff_positional sg path0 fns files F comp exec fuel operand l w :
  resolve_and_parse sg path0 fns files F comp exec fuel operand l w =
  match source l, operand with
  | Some src, _ =>
      parse sg path0 fns F comp exec fuel (config l) src false (env l) (modules l) w
  | None, Some path =>
      match uc_source_new_file files path with
      | Some src =>
          parse sg path0 fns F comp exec fuel (config l) src true (env l) (modules l) w
      | None => Ret (1, emit (Print (Failed_to_open path E_fopen)) (set_errno E_fopen w))
      end
  | None, None => Ret (1, emit (Print Source_required) w)
  end.
Proof. unfold resolve_and_parse. destruct (source l), operand; reflexivity. Qed.

(** C6, at inputs where the code departs from the specification.
    Signed plain [char]: a positional file holding the bytes 0xFF 0x61 does
    not start with [#!], yet the compiler is handed only 0x61 (the push-back
    of the 0xFF byte is a push-back of [EOF], which does nothing); and in a
    file holding [#!], 0xFF, [x], newline, [B] the discarding stops at the
    0xFF byte, so the rest of the shebang line reaches the compiler.
    Unsigned plain [char]: a positional file holding the single byte 0x61
    is handed over with a 0xFF byte appended; and on a file holding [#!/x]
    without a newline the check never returns. *)
Theorem shebang_check_mishandles_0xFF_and_EOF :
  (exists rv w',
      Reference.ref_main true 10 (mk_cmdline 2 [] (Some "ff.uc")) (Reference.world0 [])
      = Ret (rv, w') /\
      Reference.ref_files "ff.uc" = Some [255; 97] /\
      compiled (trace w') = [mk_source "ff.uc" (mkFILE [97]) 0]) /\
  (exists rv w',
      Reference.ref_main true 10 (mk_cmdline 2 [] (Some "ffline.uc")) (Reference.world0 [])
      = Ret (rv, w') /\
      Reference.ref_files "ffline.uc" = Some [35; 33; 255; 120; 10; 66] /\
      compiled (trace w') = [mk_source "ffline.uc" (mkFILE [120; 10; 66]) 0]) /\
  (exists rv w',
      Reference.ref_main false 10 (mk_cmdline 2 [] (Some "a.uc")) (Reference.world0 [])
      = Ret (rv, w') /\
      Reference.ref_files "a.uc" = Some [97] /\
      compiled (trace w') = [mk_source "a.uc" (mkFILE [97; 255]) 0]) /\
  (forall fuel,
      Reference.ref_main false fuel (mk_cmdline 2 [] (Some "noeol.uc")) (Reference.world0 [])
      = Out_of_fuel).
Proof.
  split; [|split; [|split]].
  - eexists. eexists. split; [vm_compute; reflexivity|]. split; reflexivity.
  - eexists. eexists. split; [vm_compute; reflexivity|]. split; reflexivity.
  - eexists. eexists. split; [vm_compute; reflexivity|]. split; reflexivity.
  - intros fuel. unfold Reference.ref_main, main. simpl.
    unfold resolve_and_parse. simpl. unfold parse. simpl.
    unfold Ucode.skip_shebang. simpl.
    rewrite shebang_loop_diverges_unsigned; [reflexivity | reflexivity |].
    simpl. repeat constructor; discriminate.
Qed.

(** C7, at an input where the code departs from the specification: on the
    positional file [#!/x], newline, [BODY] five bytes are discarded (the
    file has nine bytes and the compiler is handed the four of [BODY]),
    but the offset base has grown by three: the two bytes of the marker
    are read without being counted. *)
Theorem shebang_offset_omits_marker_bytes :
  forall char_signed,
  exists rv w',
    Reference.ref_main char_signed 10 (mk_cmdline 2 [] (Some "script.uc")) (Reference.world0 [])
    = Ret (rv, w') /\
    compiled (trace w') =
      [mk_source "script.uc" (mkFILE (bytes_of_string "BODY")) 3] /\
    (List.length Reference.script_with_shebang
     - List.length (bytes_of_string "BODY") = 5)%nat.
Proof.
  intros [|]; eexists; eexists;
    (split; [vm_compute; reflexivity|]); split; reflexivity.
Qed.

Lemma chunk_size_pos : (0 < chunk_size)%nat.
Proof. unfold chunk_size. lia. Qed.

(** *** Traces *)

Lemma stdin_reads_app tr1 tr2 : stdin_reads (tr1 ++ tr2) = (stdin_reads tr1 + stdin_reads tr2)%nat.
Proof.
  induction tr1 as [|e tr1 IH]; simpl; [reflexivity|].
  destruct e; simpl; rewrite IH; reflexivity.
Qed.

Lemma compiled_app tr1 tr2 : compiled (tr1 ++ tr2) = compiled tr1 ++ compiled tr2.
Proof.
  induction tr1 as [|e tr1 IH]; simpl; [reflexivity|].
  destruct e; simpl; rewrite IH; reflexivity.
Qed.

Lemma quiet_refl w : quiet w w.
Proof. split; reflexivity. Qed.

Lemma quiet_trans w1 w2 w3 : quiet w1 w2 -> quiet w2 w3 -> quiet w1 w3.
Proof. unfold quiet. intros [A B] [C D]. split; congruence. Qed.

Lemma quiet_emit w e :
  (forall n, e <> Fread_stdin n) -> quiet w (emit e w).
Proof.
  intros H. split; [reflexivity|]. simpl. rewrite stdin_reads_app. simpl.
  destruct e; try lia. exfalso. eapply H. reflexivity.
Qed.

Lemma quiet_set_errno w e : quiet w (set_errno e w).
Proof. split; reflexivity. Qed.

(** Peels [emit] and [set_errno] off the later world of a [quiet] goal. *)
Ltac quiet_tac :=
  repeat first
    [ apply quiet_refl
    | assumption
    | eapply quiet_trans;
      [| first [ apply quiet_emit; intros; discriminate | apply quiet_set_errno ] ] ].

(** *** Standard input and configuration sources (read_stdin, parse_envfile, main) *)

Section Option_properties.

Variable tokener : json_tokener.
Variable file_system : string -> option (list Z).

Local Abbreviation parse_envfile_loop := (Ucode.parse_envfile_loop tokener).
Local Abbreviation parse_envfile := (Ucode.parse_envfile tokener).
Local Abbreviation merge_request := (Ucode.merge_request tokener).
Local Abbreviation option_step := (Ucode.option_step tokener file_system).
Local Abbreviation getopt_loop := (Ucode.getopt_loop tokener file_system).

(** The chunk loop returns; the error variable is still unassigned at its
    end only if it was unassigned before and no byte was read. *)
Lemma parse_envfile_loop_returns : forall fuel tok f rv err,
  (List.length (unread f) < fuel)%nat ->
  exists rv' err' f',
    parse_envfile_loop fuel tok f rv err = Ret (rv', err', f') /\
    (err' = None -> err = None /\ unread f = []).
Proof.
  induction fuel as [|fuel IH]; intros tok f rv err Hlt; [lia|].
  cbn [Ucode.parse_envfile_loop].
  pose proof (fread_empty chunk_size f chunk_size_pos) as Hempty.
  pose proof (fread_progress chunk_size f chunk_size_pos) as Hprog.
  destruct (fread chunk_size f) as [buf f1]. cbn [fst snd] in *.
  destruct (List.length buf =? 0)%nat.
  - exists rv, err, f1. split; [reflexivity|]. intros ->. split; [reflexivity|].
    now apply Hempty.
  - assert (Hne : unread f <> []).
    { intros Hnil. apply Hempty in Hnil. discriminate. }
    specialize (Hprog Hne).
    destruct (json_tokener_parse_ex tokener tok buf) as [rv1 tok1].
    destruct (tokener_error_eqb (json_tokener_get_error tokener tok1) json_tokener_continue).
    + destruct (IH tok1 f1 rv1 (Some (json_tokener_get_error tokener tok1)))
        as [rv' [err' [f' [E Hn]]]]; [lia|].
      exists rv', err', f'. split; [exact E|].
      intros Hnone. destruct (Hn Hnone) as [Habs _]. discriminate.
    + eexists _, _, _. split; [reflexivity|]. discriminate.
Qed.

(** C9: when the byte source yields no byte, [parse_envfile] evaluates
    its tokener-error variable although nothing was ever assigned to it;
    the embedding has no result there ([Undefined]), and that is its only
    undefined input: on every source with at least one byte it returns.
    An empty [-e] argument is such a source. *)
Theorem parse_envfile_undefined_on_empty_source :
  forall f w,
    (parse_envfile f w = Undefined <-> unread f = []) /\
    ((exists v w', parse_envfile f w = Ret (v, w')) <-> unread f <> []) /\
    (forall l, option_step (Opt_e "") l w = Undefined).
Proof.
  intros f w.
  assert (Hempty : unread f = [] -> parse_envfile f w = Undefined).
  { intros H. unfold Ucode.parse_envfile. destruct f as [l]; simpl in H; subst l. reflexivity. }
  assert (Hfull : unread f <> [] -> exists v w', parse_envfile f w = Ret (v, w')).
  { intros H. unfold Ucode.parse_envfile.
    destruct (parse_envfile_loop_returns (S (List.length (unread f)))
                (xjs_new_tokener tokener) f Jnull None) as [rv [err [f' [E Hn]]]]; [lia|].
    rewrite E. simpl. destruct err as [e|].
    - destruct (_ || _); eauto.
    - destruct (Hn eq_refl) as [_ Hnil]. contradiction. }
  split; [|split].
  - split; [|exact Hempty].
    intros H. destruct (unread f) eqn:E; [reflexivity|].
    destruct Hfull as [v [w' Hr]]; [discriminate|]. congruence.
  - split; [|exact Hfull].
    intros [v [w' Hr]] Hnil. rewrite (Hempty Hnil) in Hr. discriminate.
  - intros l. reflexivity.
Qed.

(** C5: when the tokener's state after the last chunk is not success, or
    the value it completed is not an object, [parse_envfile] puts the
    value and returns NULL; the option that asked for it then ends the run
    with result 1 and the diagnostic "Option -e (or -E) must point to a
    valid JSON object", naming its own letter, and the configuration
    object and the other locals are left as they were. *)
Theorem parse_envfile_rejects_anything_but_an_object :
  forall f w rv e f',
    parse_envfile_loop (S (List.length (unread f))) (xjs_new_tokener tokener) f Jnull None
    = Ret (rv, Some e, f') ->
    e <> json_tokener_success \/ is_object rv = false ->
    let w_put := emit (Release the_tokener) (emit (Release (the_value rv)) w) in
    let w_end opt := emit (Print (Invalid_json_option opt)) (emit (Release the_envfile) w_put) in
    parse_envfile f w = Ret (Jnull, w_put) /\
    (forall optarg c_gt pre c l,
        split_optarg optarg = (c_gt, pre, c) ->
        mkFILE (bytes_of_string c) = f ->
        option_step (Opt_e optarg) l w = Ret (Goto_out l 1, w_end "e"%char)) /\
    (forall optarg c_gt pre c bytes l,
        split_optarg optarg = (c_gt, pre, c) ->
        c <> "-" -> file_system c = Some bytes -> mkFILE bytes = f ->
        option_step (Opt_E optarg) l w = Ret (Goto_out l 1, w_end "E"%char)).
Proof.
  intros f w rv e f' Hloop Hbad w_put w_end.
  assert (Hp : parse_envfile f w = Ret (Jnull, w_put)).
  { unfold Ucode.parse_envfile. rewrite Hloop. simpl.
    destruct Hbad as [Hne|Hobj].
    - destruct e; try contradiction; reflexivity.
    - rewrite Hobj. simpl. rewrite orb_true_r. reflexivity. }
  assert (Hm : forall opt c_gt optarg envfile l,
             fp envfile = f ->
             merge_request opt c_gt optarg envfile l w = Ret (Goto_out l 1, w_end opt)).
  { intros opt c_gt optarg envfile l Hfp.
    unfold Ucode.merge_request. rewrite Hfp, Hp. reflexivity. }
  split; [exact Hp|]. split.
  - intros optarg c_gt pre c l Hsplit Hf. cbn [Ucode.option_step]. rewrite Hsplit.
    apply Hm. unfold uc_source_new_buffer. cbn [fp]. rewrite <- Hf. f_equal.
    apply firstn_all2. unfold bytes_of_string. rewrite length_map.
    clear. induction c; simpl; lia.
  - intros optarg c_gt pre c bytes l Hsplit Hc Hfile Hf. cbn [Ucode.option_step].
    rewrite Hsplit. apply String.eqb_neq in Hc. rewrite Hc.
    unfold Ucode.uc_source_new_file. rewrite Hfile. cbn [bind].
    apply Hm. exact Hf.
Qed.

(** What [parse_envfile] returns other than NULL is the object the
    tokener completed with success. *)
Lemma parse_envfile_returns_only_objects f w v w' :
  parse_envfile f w = Ret (v, w') -> v <> Jnull ->
  is_object v = true /\
  exists f', parse_envfile_loop (S (List.length (unread f))) (xjs_new_tokener tokener) f Jnull None
             = Ret (v, Some json_tokener_success, f').
Proof.
  unfold Ucode.parse_envfile.
  destruct (parse_envfile_loop _ _ _ _ _) as [[[rv err] f']| |]; simpl; try discriminate.
  destruct err as [e|]; [|discriminate].
  destruct (negb (tokener_error_eqb e json_tokener_success)) eqn:E1; simpl.
  - intros H; inversion H; subst. contradiction.
  - destruct (is_object rv) eqn:E2; simpl.
    + intros H _. inversion H; subst. split; [exact E2|].
      exists f'. destruct e; try discriminate. reflexivity.
    + intros H; inversion H; subst. contradiction.
Qed.

(** Reading a configuration source leaves standard input alone. *)
Lemma parse_envfile_quiet f w v w' :
  parse_envfile f w = Ret (v, w') -> quiet w w'.
Proof.
  unfold Ucode.parse_envfile.
  destruct (parse_envfile_loop _ _ _ _ _) as [[[rv err] f']| |]; simpl; try discriminate.
  destruct err as [e|]; [|discriminate].
  destruct (_ || _); intros H; inversion H; subst; quiet_tac.
Qed.

Lemma merge_request_quiet opt c_gt optarg envfile l w fl w' :
  merge_request opt c_gt optarg envfile l w = Ret (fl, w') ->
  quiet w w' /\ stdin_buf (flow_locals fl) = stdin_buf l.
Proof.
  unfold Ucode.merge_request.
  destruct (parse_envfile (fp envfile) w) as [[o w1]| |] eqn:E; simpl; try discriminate.
  apply parse_envfile_quiet in E.
  destruct (is_null o); intros H; inversion H; subst; simpl;
    (split; [quiet_tac | reflexivity]).
Qed.

(** The guard of [read_stdin]: with the slot set, the call prints the
    diagnostic, sets [errno], returns NULL, and touches nothing else. *)
Lemma read_stdin_guard bytes w :
  read_stdin (Some bytes) w =
  Ret (None, Some bytes, set_errno EINVAL (emit (Print Stdin_only_once) w)).
Proof. reflexivity. Qed.

(** Closes a goal about a step that returned at once: the slot is the one
    of [Hslot] and the world only gained diagnostics. *)
Ltac returned_at_once Hslot :=
  let H := fresh "H" in
  intros H; inversion H; subst; simpl;
  split; [first [exact Hslot | reflexivity] | quiet_tac].

Lemma option_step_keeps_slot bytes o l w fl w' :
  stdin_buf l = Some bytes ->
  option_step o l w = Ret (fl, w') ->
  stdin_buf (flow_locals fl) = Some bytes /\ quiet w w'.
Proof.
  intros Hslot. destruct o; cbn [Ucode.option_step].
  - (* -h *) returned_at_once Hslot.
  - (* -i *) destruct (String.eqb optarg "-").
    + rewrite Hslot, read_stdin_guard. simpl.
      destruct (source l); returned_at_once Hslot.
    + simpl. destruct (Ucode.uc_source_new_file file_system optarg);
        destruct (source l); returned_at_once Hslot.
  - (* -l *) returned_at_once Hslot.
  - (* -r *) returned_at_once Hslot.
  - (* -s *) destruct (source l); returned_at_once Hslot.
  - (* -S *) returned_at_once Hslot.
  - (* -e *) destruct (split_optarg optarg) as [[c_gt pre] c].
    intros H. apply merge_request_quiet in H. destruct H as [Hq Hb].
    split; [congruence | exact Hq].
  - (* -E *) destruct (split_optarg optarg) as [[c_gt pre] c].
    destruct (String.eqb c "-").
    + rewrite Hslot, read_stdin_guard. simpl. returned_at_once Hslot.
    + simpl. destruct (Ucode.uc_source_new_file file_system c) as [ef|].
      * intros H. apply merge_request_quiet in H. destruct H as [Hq Hb].
        split; [congruence | exact Hq].
      * returned_at_once Hslot.
  - (* -m *) returned_at_once Hslot.
  - (* unknown *) returned_at_once Hslot.
Qed.

Lemma getopt_loop_keeps_slot bytes os : forall l w fl w',
  stdin_buf l = Some bytes ->
  getopt_loop os l w = Ret (fl, w') ->
  stdin_buf (flow_locals fl) = Some bytes /\ quiet w w'.
Proof.
  induction os as [|o os IH]; intros l w fl w' Hslot; cbn [Ucode.getopt_loop].
  - returned_at_once Hslot.
  - destruct (option_step o l w) as [[fl1 w1]| |] eqn:E; simpl; try discriminate.
    destruct (option_step_keeps_slot _ _ _ _ _ _ Hslot E) as [Hb Hq].
    destruct fl1 as [l1|l1 rv]; simpl in Hb.
    + intros H. destruct (IH _ _ _ _ Hb H) as [Hb' Hq'].
      split; [exact Hb' | eapply quiet_trans; eauto].
    + intros H; inversion H; subst; simpl. split; [exact Hb | exact Hq].
Qed.

(** The read loop drains standard input: afterwards the slot holds what
    it held plus every byte that was left, and stays as it was when no
    byte was left. *)
Lemma read_stdin_loop_drains : forall fuel ptr w,
  (List.length (unread (stdin_stream w)) < fuel)%nat ->
  let ptr' := match unread (stdin_stream w) with
              | [] => ptr
              | _ :: _ => Some (buffer_of ptr ++ unread (stdin_stream w))
              end in
  exists w',
    read_stdin_loop fuel ptr (List.length (buffer_of ptr)) w
    = Ret (ptr', List.length (buffer_of ptr'), w') /\
    unread (stdin_stream w') = [] /\ errno w' = errno w.
Proof.
  induction fuel as [|fuel IH]; intros ptr w Hlt; [lia|].
  cbn [Ucode.read_stdin_loop].
  pose proof (fread_empty chunk_size (stdin_stream w) chunk_size_pos) as Hempty.
  pose proof (fread_progress chunk_size (stdin_stream w) chunk_size_pos) as Hprog.
  pose proof (fread_app chunk_size (stdin_stream w)) as Happ.
  destruct (fread chunk_size (stdin_stream w)) as [buf f1]. cbn [fst snd] in *.
  destruct (List.length buf =? 0)%nat eqn:E.
  - assert (Hnil : unread (stdin_stream w) = []) by now apply Hempty.
    rewrite Hnil in *. simpl. eexists. split; [reflexivity|]. simpl.
    split; [|reflexivity].
    destruct buf; [exact Happ | discriminate].
  - assert (Hne : unread (stdin_stream w) <> []).
    { intros Hnil. apply Hempty in Hnil. discriminate. }
    specialize (Hprog Hne).
    rewrite firstn_all.
    set (ptr1 := Some (buffer_of ptr ++ buf)).
    set (w1 := emit (Fread_stdin (List.length buf)) (set_stdin f1 w)).
    replace (List.length (buffer_of ptr) + List.length buf)%nat
      with (List.length (buffer_of ptr1)) by (simpl; now rewrite length_app).
    destruct (IH ptr1 w1) as [w' [Hrun [Hdr Herr]]]; [simpl; lia|].
    exists w'. rewrite Hrun. clear Hrun.
    change (stdin_stream w1) with f1.
    destruct (unread (stdin_stream w)) as [|b rest] eqn:Hin; [contradiction|].
    split; [|split; assumption].
    assert (Hsame : match unread f1 with
                    | [] => ptr1
                    | _ :: _ => Some (buffer_of ptr1 ++ unread f1)
                    end = Some (buffer_of ptr ++ b :: rest)).
    { unfold ptr1. simpl. rewrite <- Happ.
      destruct (unread f1); [now rewrite app_nil_r | now rewrite <- app_assoc]. }
    rewrite Hsame. reflexivity.
Qed.

(** A first call with bytes on standard input captures all of them into
    the slot; with no byte on standard input the slot stays NULL. *)
Lemma read_stdin_captures w :
  exists w',
    read_stdin None w =
    Ret (Some (mk_source "[stdin]" (mkFILE (unread (stdin_stream w))) 0),
         match unread (stdin_stream w) with
         | [] => None
         | _ :: _ => Some (unread (stdin_stream w))
         end, w') /\
    unread (stdin_stream w') = [].
Proof.
  unfold read_stdin.
  destruct (read_stdin_loop_drains (S (List.length (unread (stdin_stream w)))) None w)
    as [w' [Hrun [Hdr _]]]; [lia|].
  cbn [buffer_of List.length] in Hrun. rewrite Hrun. cbn [bind].
  exists w'. split; [|exact Hdr].
  unfold uc_source_new_buffer.
  destruct (unread (stdin_stream w)); cbn [buffer_of]; [reflexivity|].
  now rewrite firstn_all.
Qed.

(** With the slot set, no capture attempt succeeds and no option touches
    the slot or standard input. *)
Lemma slot_set_blocks_capture bytes l w :
  stdin_buf l = Some bytes ->
  read_stdin (stdin_buf l) w
    = Ret (None, Some bytes, set_errno EINVAL (emit (Print Stdin_only_once) w)) /\
  (exists l' w',
      option_step (Opt_i "-") l w = Ret (Goto_out l' 1, w') /\
      stdin_buf l' = Some bytes /\ quiet w w' /\
      In (Print Stdin_only_once) (new_events w w')) /\
  (forall optarg c_gt pre,
      split_optarg optarg = (c_gt, pre, "-") ->
      exists l' w',
        option_step (Opt_E optarg) l w = Ret (Goto_out l' 1, w') /\
        stdin_buf l' = Some bytes /\ quiet w w' /\
        In (Print Stdin_only_once) (new_events w w')) /\
  (forall os fl w',
      getopt_loop os l w = Ret (fl, w') ->
      stdin_buf (flow_locals fl) = Some bytes /\ quiet w w').
Proof.
  intros Hslot.
  split; [rewrite Hslot; apply read_stdin_guard|].
  split; [|split].
  - cbn [Ucode.option_step]. simpl. rewrite Hslot, read_stdin_guard. simpl.
    eexists. eexists. split; [reflexivity|]. split; [reflexivity|].
    split.
    + destruct (source l); quiet_tac.
    + unfold new_events. simpl.
      destruct (source l); simpl; repeat rewrite <- app_assoc; rewrite new_events_app;
        simpl; auto.
  - intros optarg c_gt pre Hsplit. cbn [Ucode.option_step]. rewrite Hsplit. simpl.
    rewrite Hslot, read_stdin_guard. simpl.
    eexists. eexists. split; [reflexivity|]. split; [reflexivity|].
    split.
    + quiet_tac.
    + unfold new_events. simpl. repeat rewrite <- app_assoc. rewrite new_events_app.
      simpl; auto.
  - intros os fl w' H. eapply getopt_loop_keeps_slot; eauto.
Qed.

(** The guard of [read_stdin] once the slot holds bytes: after a call of
    [read_stdin] that stored bytes in the slot (the slot then holds all
    the bytes that were on standard input, and standard input is
    drained), every later capture attempt fails:
    [read_stdin] prints "Can read from stdin only once", sets [errno] to
    EINVAL and returns NULL without reading; asked for by [-i -] or by
    [-E -] (with or without a prefix) it ends the run with result 1; and
    whatever options follow, in whatever order, the slot keeps the
    captured bytes and standard input is not read again. *)
Theorem guard_refuses_capture_after_stored_bytes :
  forall w0 src bytes w1,
    read_stdin None w0 = Ret (src, Some bytes, w1) ->
    bytes = unread (stdin_stream w0) /\
    unread (stdin_stream w1) = [] /\
    forall l w,
      stdin_buf l = Some bytes ->
      read_stdin (stdin_buf l) w
        = Ret (None, Some bytes, set_errno EINVAL (emit (Print Stdin_only_once) w)) /\
      (exists l' w',
          option_step (Opt_i "-") l w = Ret (Goto_out l' 1, w') /\
          stdin_buf l' = Some bytes /\ quiet w w' /\
          In (Print Stdin_only_once) (new_events w w')) /\
      (forall optarg c_gt pre,
          split_optarg optarg = (c_gt, pre, "-") ->
          exists l' w',
            option_step (Opt_E optarg) l w = Ret (Goto_out l' 1, w') /\
            stdin_buf l' = Some bytes /\ quiet w w' /\
            In (Print Stdin_only_once) (new_events w w')) /\
      (forall os fl w',
          getopt_loop os l w = Ret (fl, w') ->
          stdin_buf (flow_locals fl) = Some bytes /\ quiet w w').
Proof.
  intros w0 src bytes w1 Hcall.
  destruct (read_stdin_captures w0) as [w' [Hrun Hdr]].
  rewrite Hrun in Hcall.
  assert (Hw : w' = w1) by congruence.
  assert (Hslot : match unread (stdin_stream w0) with
                  | [] => None
                  | _ :: _ => Some (unread (stdin_stream w0))
                  end = Some bytes) by congruence.
  clear Hcall Hrun. rewrite Hw in Hdr.
  split; [|split; [exact Hdr|]].
  - destruct (unread (stdin_stream w0)); [discriminate | congruence].
  - intros l w Hl. now apply slot_set_blocks_capture.
Qed.

End Option_properties.

(** *** Which source is compiled (main, lines 258-288 and 364-382) *)

Section Source_selection.

Variable char_signed : bool.
Variable LIB_SEARCH_PATH : string.
Variable tokener : json_tokener.
Variable functions : list (string * json).
Variable file_system : string -> option (list Z).
Variable uc_function : Type.
Variable uc_compile : uc_parse_config -> uc_source -> uc_function + string.
Variable uc_vm_execute : uc_function -> uc_prototype -> json -> Z.

Local Abbreviation option_step := (Ucode.option_step tokener file_system).
Local Abbreviation uc_source_new_file := (Ucode.uc_source_new_file file_system).
Local Abbreviation parse :=
  (Ucode.parse char_signed LIB_SEARCH_PATH functions uc_function uc_compile uc_vm_execute).
Local Abbreviation main :=
  (Ucode.main char_signed LIB_SEARCH_PATH tokener functions file_system
              uc_function uc_compile uc_vm_execute).

(** Without the shebang check [parse] returns, having handed exactly the
    given source to the compiler. *)
Lemma parse_compiles_given_source fuel config src env modules w :
  exists rc w',
    parse fuel config src false env modules w = Ret (rc, w') /\
    exists tr, trace w' = trace w ++ tr /\ compiled tr = [src].
Proof.
  destruct (parse_returns char_signed LIB_SEARCH_PATH functions uc_function uc_compile
              uc_vm_execute fuel config src false env modules w) as [rc [w' H]];
    [left; reflexivity|].
  exists rc, w'. split; [exact H|].
  apply parse_trace in H. destruct H as [src' [Hs Ht]].
  inversion Hs; subst src'.
  destruct (uc_compile config src); destruct Ht as [_ Ht]; rewrite Ht;
    eexists; (split; [reflexivity|]); reflexivity.
Qed.

(** Each of the two handlers stores its own source over the one already
    set, after the diagnostic. *)
Lemma s_overwrites_source text l old w :
  source l = Some old ->
  option_step (Opt_s text) l w =
  Ret (Next (with_source l (Some (uc_source_new_buffer "[-s argument]" (bytes_of_string text)
                                                     (String.length text)))),
       emit (Print Options_exclusive) w).
Proof. intros H. cbn [Ucode.option_step]. rewrite H. reflexivity. Qed.

Lemma i_overwrites_source path src l old w :
  source l = Some old -> path <> "-" -> uc_source_new_file path = Some src ->
  option_step (Opt_i path) l w =
  Ret (Next (with_source l (Some src)), emit (Print Options_exclusive) w).
Proof.
  intros H Hp Hf. cbn [Ucode.option_step]. rewrite H.
  apply String.eqb_neq in Hp. rewrite Hp. rewrite Hf. reflexivity.
Qed.

Local Abbreviation getopt_loop := (Ucode.getopt_loop tokener file_system).

(** An option that lets the loop go on either is [-i] or [-s] and has set
    its own source, or has left the source alone. *)
Lemma option_step_source o l w l' w' :
  option_step o l w = Ret (Next l', w') ->
  match o with
  | Opt_i _ | Opt_s _ => source_of_option file_system o (source l')
  | _ => source l' = source l
  end.
Proof.
  destruct o; cbn [Ucode.option_step source_of_option].
  - discriminate.
  - destruct (String.eqb optarg "-").
    + destruct (stdin_buf l) as [b|] eqn:Hb.
      * rewrite read_stdin_guard. cbn [bind]. discriminate.
      * destruct (read_stdin_captures
                    match source l with
                    | Some _ => emit (Print Options_exclusive) w
                    | None => w
                    end) as [w1 [Hrun _]].
        rewrite Hrun. cbn [bind]. intros H; inversion H; subst. cbn [source with_source].
        eexists. reflexivity.
    + cbn [bind]. destruct (uc_source_new_file optarg) as [src|] eqn:Hf.
      * intros H; inversion H; subst. cbn [source with_source]. split; [discriminate|reflexivity].
      * discriminate.
  - intros H; inversion H; subst. reflexivity.
  - intros H; inversion H; subst. reflexivity.
  - intros H; inversion H; subst. reflexivity.
  - intros H; inversion H; subst. reflexivity.
  - destruct (split_optarg optarg) as [[c_gt pre] c]. unfold Ucode.merge_request.
    destruct (Ucode.parse_envfile tokener _ w) as [[o w1]| |]; cbn [bind]; try discriminate.
    destruct (is_null o); intros H; inversion H; subst. reflexivity.
  - destruct (split_optarg optarg) as [[c_gt pre] c].
    destruct (String.eqb c "-").
    + destruct (read_stdin (stdin_buf l) w) as [[[src buf] w1]| |]; cbn [bind]; try discriminate.
      destruct src as [ef|]; [|discriminate]. unfold Ucode.merge_request.
      destruct (Ucode.parse_envfile tokener _ w1) as [[o w2]| |]; cbn [bind]; try discriminate.
      destruct (is_null o); intros H; inversion H; subst. reflexivity.
    + cbn [bind]. destruct (uc_source_new_file c) as [ef|]; [|discriminate].
      unfold Ucode.merge_request.
      destruct (Ucode.parse_envfile tokener _ w) as [[o w2]| |]; cbn [bind]; try discriminate.
      destruct (is_null o); intros H; inversion H; subst. reflexivity.
  - intros H; inversion H; subst. reflexivity.
  - intros H; inversion H; subst. reflexivity.
Qed.

(** When the option loop runs to its end, the source it leaves is the one
    of the last [-i] or [-s], whatever other options surround them. *)
Lemma getopt_loop_source_is_last os : forall l w l' w',
  getopt_loop os l w = Ret (Next l', w') ->
  match last_source_option os with
  | Some o => source_of_option file_system o (source l')
  | None => source l' = source l
  end.
Proof.
  induction os as [|o os IH]; intros l w l' w'; cbn [Ucode.getopt_loop last_source_option].
  - intros H; inversion H; subst. reflexivity.
  - destruct (option_step o l w) as [[fl w1]| |] eqn:Hstep; cbn [bind]; try discriminate.
    destruct fl as [l1|l1 rv]; [|discriminate].
    intros Hrest. specialize (IH _ _ _ _ Hrest).
    destruct (last_source_option os) as [o'|]; [exact IH|].
    apply option_step_source in Hstep.
    destruct o; try congruence; rewrite IH; exact Hstep.
Qed.

(** C10: with both [-i] and [-s] on the command line, the source that is
    compiled is the one of the option that comes last, and the conflict
    diagnostic is printed: each handler stores its source over the one
    that is already set, after the diagnostic.  Shown for the handlers,
    for the two command lines [-i path -s text] and [-s text -i path], and
    for every option list that the loop runs to its end. *)
Theorem last_of_i_and_s_is_compiled :
  forall fuel argc operand path text src w,
    argc <> 1 -> path <> "-" -> uc_source_new_file path = Some src ->
    let buffer := uc_source_new_buffer "[-s argument]" (bytes_of_string text)
                                       (String.length text) in
    (forall l old w,
        source l = Some old ->
        option_step (Opt_s text) l w
          = Ret (Next (with_source l (Some buffer)), emit (Print Options_exclusive) w) /\
        option_step (Opt_i path) l w
          = Ret (Next (with_source l (Some src)), emit (Print Options_exclusive) w)) /\
    (exists rv w',
        main fuel (mk_cmdline argc [Opt_i path; Opt_s text] operand) w = Ret (rv, w') /\
        compiled (new_events w w') = [buffer] /\
        In (Print Options_exclusive) (new_events w w')) /\
    (exists rv w',
        main fuel (mk_cmdline argc [Opt_s text; Opt_i path] operand) w = Ret (rv, w') /\
        compiled (new_events w w') = [src] /\
        In (Print Options_exclusive) (new_events w w')) /\
    (forall os l w l' w',
        getopt_loop os l w = Ret (Next l', w') ->
        match last_source_option os with
        | Some o => source_of_option file_system o (source l')
        | None => source l' = source l
        end).
Proof.
  intros fuel argc operand path text src w Hargc Hpath Hfile buffer.
  split.
  { intros l old w0 Hl. split.
    - now apply s_overwrites_source with (old := old).
    - now apply i_overwrites_source with (old := old). }
  apply Z.eqb_neq in Hargc. apply String.eqb_neq in Hpath.
  split; [|split; [|exact getopt_loop_source_is_last]].
  - unfold Ucode.main. cbn [Ucode.argc opts Ucode.operand]. rewrite Hargc.
    cbn [Ucode.getopt_loop Ucode.option_step initial_locals source]. rewrite Hpath.
    rewrite Hfile. cbn [bind with_source source]. fold buffer.
    unfold resolve_and_parse. cbn [source with_source].
    destruct (parse_compiles_given_source fuel
                (config (with_source (with_source initial_locals (Some src)) (Some buffer)))
                buffer
                (env (with_source (with_source initial_locals (Some src)) (Some buffer)))
                (modules (with_source (with_source initial_locals (Some src)) (Some buffer)))
                (emit (Print Options_exclusive) w))
      as [rc [w' [Hrun [tr [Htr Hc]]]]].
    cbn [config env modules with_source initial_locals] in *.
    rewrite Hrun. cbn [bind]. exists rc. eexists. split; [reflexivity|].
    unfold new_events, main_out. cbn [trace emit]. rewrite Htr. cbn [trace emit].
    repeat rewrite <- app_assoc. rewrite new_events_app.
    split.
    + rewrite !compiled_app. rewrite Hc. reflexivity.
    + left. reflexivity.
  - unfold Ucode.main. cbn [Ucode.argc opts Ucode.operand]. rewrite Hargc.
    cbn [Ucode.getopt_loop Ucode.option_step initial_locals source bind with_source].
    rewrite Hpath. rewrite Hfile. cbn [bind with_source source].
    unfold resolve_and_parse. cbn [source with_source].
    destruct (parse_compiles_given_source fuel
                (config (with_source (with_source initial_locals (Some buffer)) (Some src)))
                src
                (env (with_source (with_source initial_locals (Some buffer)) (Some src)))
                (modules (with_source (with_source initial_locals (Some buffer)) (Some src)))
                (emit (Print Options_exclusive) w))
      as [rc [w' [Hrun [tr [Htr Hc]]]]].
    cbn [config env modules with_source initial_locals] in *.
    fold buffer. rewrite Hrun. cbn [bind]. exists rc. eexists. split; [reflexivity|].
    unfold new_events, main_out. cbn [trace emit]. rewrite Htr. cbn [trace emit].
    repeat rewrite <- app_assoc. rewrite new_events_app.
    split.
    + rewrite !compiled_app. rewrite Hc. reflexivity.
    + left. reflexivity.
Qed.

End Source_selection.

(** *** Runs of the reference instance *)

Lemma guard_refuses_capture_after_stored_bytes_witness :
  let w0 := Reference.world0 (bytes_of_string "{}") in
  let l := flow_locals (fst Reference.after_capture) in
  let w := snd Reference.after_capture in
  stdin_buf l = Some (bytes_of_string "{}") /\
  exists l' w',
    Ucode.option_step Reference.ref_tokener Reference.ref_files (Opt_i "-") l w
    = Ret (Goto_out l' 1, w') /\
    stdin_buf l' = Some (bytes_of_string "{}") /\ quiet w w' /\
    In (Print Stdin_only_once) (new_events w w').
Proof.
  intros w0 l w.
  assert (Hslot : stdin_buf l = Some (bytes_of_string "{}")) by (vm_compute; reflexivity).
  split; [exact Hslot|].
  refine (proj1 (proj2 (proj2 (proj2
            (guard_refuses_capture_after_stored_bytes Reference.ref_tokener Reference.ref_files
               w0 (Some (mk_source "[stdin]" (mkFILE (bytes_of_string "{}")) 0))
               (bytes_of_string "{}")
               (mk_world (mkFILE []) E_fopen [Fread_stdin 2; Fread_stdin 0]) _))
            l w Hslot))).
  vm_compute. reflexivity.
Defined.

(** C4: the guard of [read_stdin] tests the buffer pointer, and a capture
    that finds standard input empty stores nothing there.  So after such a
    capture a second attempt is not refused: [read_stdin] reads standard
    input again and returns a source, with no diagnostic.  On the command
    line [-i - -i -] with empty standard input the run reads twice and
    ends with 0; with one byte on standard input the same command line is
    refused at the second [-i -] and ends with 1. *)
Theorem second_capture_of_empty_stdin_is_not_refused :
  (forall e tr,
      let w := mk_world (mkFILE []) e tr in
      exists src w1 src2 w2,
        read_stdin None w = Ret (Some src, None, w1) /\
        new_events w w1 = [Fread_stdin 0] /\
        read_stdin None w1 = Ret (Some src2, None, w2) /\
        new_events w1 w2 = [Fread_stdin 0]) /\
  (forall char_signed,
      let w := Reference.world0 [] in
      exists w',
        Reference.ref_main char_signed 10 (mk_cmdline 5 [Opt_i "-"; Opt_i "-"] None) w
        = Ret (0, w') /\
        stdin_read_sizes (trace w') = [0%nat; 0%nat] /\
        ~ In (Print Stdin_only_once) (trace w') /\
        compiled (trace w') = [mk_source "[stdin]" (mkFILE []) 0]) /\
  (forall char_signed,
      let w := Reference.world0 (bytes_of_string "x") in
      exists w',
        Reference.ref_main char_signed 10 (mk_cmdline 5 [Opt_i "-"; Opt_i "-"] None) w
        = Ret (1, w') /\
        stdin_read_sizes (trace w') = [1%nat; 0%nat] /\
        In (Print Stdin_only_once) (trace w') /\
        compiled (trace w') = []).
Proof.
  split; [|split].
  - intros e tr w.
    exists (mk_source "[stdin]" (mkFILE []) 0), (mk_world (mkFILE []) e (tr ++ [Fread_stdin 0])),
           (mk_source "[stdin]" (mkFILE []) 0),
           (mk_world (mkFILE []) e ((tr ++ [Fread_stdin 0]) ++ [Fread_stdin 0])).
    split; [reflexivity|]. split; [apply (new_events_app w)|].
    split; [reflexivity|].
    apply (new_events_app (mk_world (mkFILE []) e (tr ++ [Fread_stdin 0]))).
  - intros sg w. destruct sg; eexists; (split; [vm_compute; reflexivity|]);
      (split; [reflexivity|]); (split; [|reflexivity]);
      cbn; intros H; repeat (destruct H as [H|H]; [discriminate H|]); exact H.
  - intros sg w. destruct sg; eexists; (split; [vm_compute; reflexivity|]);
      (split; [reflexivity|]); (split; [|reflexivity]);
      cbn; tauto.
Qed.

Lemma parse_envfile_rejects_anything_but_an_object_witness :
  let w := Reference.world0 [] in
  Reference.ref_getopt_loop [Opt_e "[1]"] initial_locals w =
  Ret (Goto_out initial_locals 1,
       emit (Print (Invalid_json_option "e"%char))
         (emit (Release the_envfile)
            (emit (Release the_tokener)
               (emit (Release (the_value (Jarray [Jint 1]))) w)))).
Proof.
  intros w. unfold Reference.ref_getopt_loop. cbn [Ucode.getopt_loop].
  rewrite (proj1 (proj2 (parse_envfile_rejects_anything_but_an_object
                           Reference.ref_tokener Reference.ref_files
                           (mkFILE (bytes_of_string "[1]")) w
                           (Jarray [Jint 1]) json_tokener_success (mkFILE [])
                           ltac:(vm_compute; reflexivity)
                           ltac:(right; reflexivity)))
             "[1]" false "[1]" "[1]" initial_locals eq_refl eq_refl).
  reflexivity.
Defined.

Lemma last_of_i_and_s_is_compiled_witness :
  let w := Reference.world0 [] in
  exists rv w',
    Reference.ref_main true 10 (mk_cmdline 5 [Opt_i "plain.uc"; Opt_s "print(1)"] None) w
    = Ret (rv, w') /\
    compiled (new_events w w') = [Reference.inline_source "print(1)"] /\
    In (Print Options_exclusive) (new_events w w').
Proof.
  intros w.
  refine (proj1 (proj2 (last_of_i_and_s_is_compiled true Reference.ref_search_path
                   Reference.ref_tokener Reference.ref_functions Reference.ref_files
                   uc_source Reference.ref_compile Reference.ref_execute
                   10%nat 5 None "plain.uc" "print(1)"
                   (mk_source "plain.uc" (mkFILE (bytes_of_string "no-shebang")) 0)
                   w _ _ _))).
  - discriminate.
  - discriminate.
  - reflexivity.
Defined.

(* ===================================================================== *)
(** ** Further properties of main.c *)
(* ===================================================================== *)

(** *** Strings *)

Lemma list_ascii_of_string_app s t :
  list_ascii_of_string (s ++ t)%string = list_ascii_of_string s ++ list_ascii_of_string t.
Proof. induction s as [|a s IH]; simpl; [reflexivity | now rewrite IH]. Qed.

Lemma append_nil_r s : (s ++ "")%string = s.
Proof. induction s as [|a s IH]; simpl; [reflexivity | now rewrite IH]. Qed.

Lemma append_assoc s t u : ((s ++ t) ++ u)%string = (s ++ (t ++ u))%string.
Proof. induction s as [|a s IH]; simpl; [reflexivity | now rewrite IH]. Qed.

Lemma lacks_snoc a c s : c <> a -> lacks a s -> lacks a (s ++ String c "")%string.
Proof.
  unfold lacks. intros Hc Hs Hin. rewrite list_ascii_of_string_app in Hin.
  apply in_app_or in Hin. destruct Hin as [Hin|[Hin|[]]]; [tauto | congruence].
Qed.

(** *** globals_init (lines 57-75) *)

Lemma split_search_path_segments p : forall seg acc,
  lacks ":"%char seg ->
  exists segs,
    split_search_path p seg (Jarray acc) = Jarray (acc ++ map Jstring segs) /\
    segs <> [] /\
    String.concat ":" segs = (seg ++ p)%string /\
    Forall (lacks ":"%char) segs /\
    List.length segs = S (count_char ":"%char p).
Proof.
  induction p as [|c rest IH]; intros seg acc Hseg.
  - exists [seg]. simpl. rewrite append_nil_r. repeat split; auto. discriminate.
  - cbn [split_search_path count_char]. destruct (Ascii.eqb c ":"%char) eqn:E.
    + apply Ascii.eqb_eq in E. subst c.
      destruct (IH "" (acc ++ [Jstring seg])) as [segs [Hr [Hne [Hc [Hall Hlen]]]]].
      { intros []. }
      exists (seg :: segs). cbn [json_object_array_add]. rewrite Hr.
      repeat split.
      * rewrite <- app_assoc. reflexivity.
      * discriminate.
      * destruct segs as [|s0 segs]; [contradiction|].
        change (String.concat ":" (seg :: s0 :: segs))
          with (seg ++ ":" ++ String.concat ":" (s0 :: segs))%string.
        rewrite Hc. reflexivity.
      * constructor; assumption.
      * simpl. now rewrite Hlen.
    + destruct (IH (seg ++ String c "")%string acc) as [segs [Hr [Hne [Hc [Hall Hlen]]]]].
      { apply lacks_snoc; [|exact Hseg]. intros ->. rewrite Ascii.eqb_refl in E. discriminate. }
      exists segs. rewrite Hr. repeat split; auto.
      rewrite Hc. rewrite append_assoc. reflexivity.
Qed.

(** X1: [globals_init] installs under REQUIRE_SEARCH_PATH the array of the
    segments of the search path between its colons: joining the segments
    with colons gives the path back, no segment holds a colon, and there
    is one segment more than there are colons, so empty segments (and the
    single empty segment of an empty path) are kept.  Whatever the scope
    held under that key before is replaced. *)
Theorem globals_init_splits_search_path :
  forall path m p,
  exists segs,
    json_object_object_get (jso (globals_init path (mk_proto (Jobject m) p)))
                           "REQUIRE_SEARCH_PATH"
      = Some (Jarray (map Jstring segs)) /\
    String.concat ":" segs = path /\
    Forall (lacks ":"%char) segs /\
    List.length segs = S (count_char ":"%char path).
Proof.
  intros path m p.
  destruct (split_search_path_segments path "" []) as [segs [Hr [_ [Hc [Hall Hlen]]]]].
  { intros []. }
  exists segs. split; [|auto].
  unfold globals_init, xjs_new_array, set_jso. rewrite Hr.
  cbn [jso json_object_object_add app]. apply get_add_same.
Qed.

(** *** register_variable (lines 77-92) *)

Lemma rewrite_char_idempotent a : rewrite_char (rewrite_char a) = rewrite_char a.
Proof. destruct a as [[] [] [] [] [] [] [] []]; vm_compute; reflexivity. Qed.

Lemma rewrite_char_fixed a : rewrite_char a = a <-> is_ident_char a = true.
Proof.
  destruct a as [[] [] [] [] [] [] [] []]; vm_compute; split; intro H;
    try reflexivity; try discriminate.
Qed.

(** X3: sanitizing is idempotent, and the keys it leaves unchanged are
    exactly those whose characters are all in [[A-Za-z0-9_]]; the result
    does not depend on whether plain [char] is signed. *)
Theorem sanitize_idempotent_and_fixed_points :
  forall char_signed key,
    sanitize char_signed (sanitize char_signed key) = sanitize char_signed key /\
    (sanitize char_signed key = key <-> all_ident_chars key = true) /\
    sanitize char_signed key = sanitize (negb char_signed) key.
Proof.
  intros sg key. rewrite !sanitize_rewrite. split; [|split; [|reflexivity]].
  - induction key as [|a key IH]; simpl; [reflexivity|].
    now rewrite rewrite_char_idempotent, IH.
  - induction key as [|a key IH]; simpl; [tauto|].
    rewrite andb_true_iff. rewrite <- IH, <- rewrite_char_fixed.
    split; [intros H; inversion H as [[H1 H2]]; rewrite H1, H2; auto
           | intros [H1 H2]; now rewrite H1, H2].
Qed.

(** *** The option argument of -e and -E (main, lines 295-312) *)

(** X4: the argument of [-e] and [-E] is cut at its first '=': when there
    is one, the argument is the prefix, '=', and the rest, and the prefix
    holds no '='; when there is none, the whole argument is the source and
    no prefix is recognised. *)
Theorem split_optarg_cuts_at_first_equals :
  forall optarg,
    match split_optarg optarg with
    | (true, pre, c) => optarg = (pre ++ "=" ++ c)%string /\ lacks "="%char pre
    | (false, pre, c) => pre = optarg /\ c = optarg /\ lacks "="%char optarg
    end.
Proof.
  intros optarg. unfold split_optarg.
  induction optarg as [|a s IH]; simpl.
  - repeat split. intros [].
  - destruct (Ascii.eqb a "="%char) eqn:E.
    + apply Ascii.eqb_eq in E. subst a. split; [reflexivity | intros []].
    + assert (Ha : a <> "="%char) by (intros ->; rewrite Ascii.eqb_refl in E; discriminate).
      destruct (strchr_eq s) as [[pre post]|].
      * destruct IH as [Heq Hl]. split; [simpl; f_equal; exact Heq|].
        unfold lacks in *. simpl. intros [H|H]; [congruence | tauto].
      * destruct IH as [_ [_ Hl]]. repeat split.
        unfold lacks in *. simpl. intros [H|H]; [congruence | tauto].
Qed.

(** *** The globals scope (parse, lines 134-141) *)

(** X2: what a name resolves to in the scope that [parse] has filled when
    it calls the standard-library installer, for every name: the value of
    the last configuration key whose sanitized form is that name;
    otherwise, for REQUIRE_SEARCH_PATH, the search-path list; otherwise
    nothing.  So a configuration key whose sanitized form is
    REQUIRE_SEARCH_PATH replaces the search-path list, and of two keys
    with one sanitized form the later one is kept. *)
Theorem configured_scope_lookup_precedence :
  forall char_signed path env name,
    json_object_object_get
      (jso (load_env char_signed (globals_init path (uc_prototype_new None)) env)) name =
    match last_value (sanitized_members char_signed env) name with
    | Some v => Some v
    | None =>
        if String.eqb "REQUIRE_SEARCH_PATH" name
        then Some (split_search_path path "" xjs_new_array)
        else None
    end.
Proof.
  intros sg path env name.
  unfold globals_init, uc_prototype_new, xjs_new_object, set_jso.
  cbn [jso parent json_object_object_add members_add].
  rewrite load_env_as_add_all. cbn [jso].
  rewrite get_add_all_last.
  destruct (last_value (sanitized_members sg env) name); [reflexivity|].
  cbn [members_get]. destruct (String.eqb "REQUIRE_SEARCH_PATH" name); reflexivity.
Qed.

(** *** Merging a parsed object (main, lines 338-349) *)

(** X5: a merge without a namespace (no '=' in the argument, or nothing
    before the '=') accumulates at the top level of the configuration
    object: a key of the request gets the request's last value for it, and
    every other key keeps what it had. *)
Theorem top_level_merge_accumulates :
  forall env c_gt_optarg optarg o k,
    env_ok env = true ->
    c_gt_optarg = false \/ optarg = "" ->
    json_object_object_get (merge_env env c_gt_optarg optarg o) k =
    match last_value (members_of o) k with
    | Some v => Some v
    | None => json_object_object_get env k
    end.
Proof.
  intros env c_gt optarg o k Hok Htop. unfold merge_env.
  assert (E : c_gt && negb (String.eqb optarg "") = false).
  { destruct Htop as [-> | ->]; [reflexivity | apply andb_false_r]. }
  rewrite E.
  destruct env; try discriminate; unfold xjs_new_object; cbn [is_null];
    rewrite get_add_all_last; reflexivity.
Qed.

Lemma top_level_merge_accumulates_witness :
  let env1 := merge_env Jnull false "{}" (Jobject [("x", Jint 1); ("y", Jint 2)]) in
  let env2 := merge_env env1 true "" (Jobject [("y", Jint 3)]) in
  json_object_object_get env2 "x" = Some (Jint 1) /\
  json_object_object_get env2 "y" = Some (Jint 3).
Proof.
  intros env1 env2. split.
  - exact (top_level_merge_accumulates env1 true "" (Jobject [("y", Jint 3)]) "x"
             eq_refl (or_intror eq_refl)).
  - exact (top_level_merge_accumulates env1 true "" (Jobject [("y", Jint 3)]) "y"
             eq_refl (or_intror eq_refl)).
Defined.

(** X6: a merge under a non-empty namespace prefix changes nothing but
    the entry of that prefix: every other top-level key of the
    configuration object keeps its value. *)
Theorem prefixed_merge_leaves_other_keys :
  forall env prefix o k,
    env_ok env = true -> prefix <> "" -> k <> prefix ->
    json_object_object_get (merge_env env true prefix o) k = json_object_object_get env k.
Proof.
  intros env prefix o k Hok Hp Hk. rewrite merge_env_prefixed by assumption.
  destruct env; try discriminate; unfold xjs_new_object; cbn [is_null].
  - unfold json_object_object_get. cbn [json_object_object_add members_of].
    apply members_get_add_other. congruence.
  - apply get_add_other. congruence.
Qed.

Lemma prefixed_merge_leaves_other_keys_witness :
  let env := Jobject [("x", Jint 1); ("a", Jobject [("old", Jint 0)])] in
  json_object_object_get (merge_env env true "a" (Jobject [("y", Jint 2)])) "x" = Some (Jint 1).
Proof.
  intros env.
  apply (prefixed_merge_leaves_other_keys env "a" (Jobject [("y", Jint 2)]) "x").
  - reflexivity.
  - discriminate.
  - discriminate.
Defined.

(** *** How traces grow *)

Lemma grows_refl P w : grows P w w.
Proof. exists []. split; [now rewrite app_nil_r | reflexivity]. Qed.

Lemma grows_trans P w1 w2 w3 : grows P w1 w2 -> grows P w2 w3 -> grows P w1 w3.
Proof.
  intros [t1 [H1 F1]] [t2 [H2 F2]]. exists (t1 ++ t2). split.
  - rewrite H2, H1. now rewrite app_assoc.
  - rewrite forallb_app, F1, F2. reflexivity.
Qed.

Lemma grows_emit P w e : P e = true -> grows P w (emit e w).
Proof. intros H. exists [e]. split; [reflexivity | simpl; now rewrite H]. Qed.

Lemma grows_set_errno P w e : grows P w (set_errno e w).
Proof. exists []. split; [simpl; now rewrite app_nil_r | reflexivity]. Qed.

Lemma grows_set_stdin P w f : grows P w (set_stdin f w).
Proof. exists []. split; [simpl; now rewrite app_nil_r | reflexivity]. Qed.

Lemma grows_new_events P w w' :
  grows P w w' -> trace w' = trace w ++ new_events w w' /\ forallb P (new_events w w') = true.
Proof.
  intros [tr [H F]]. unfold new_events. rewrite H, new_events_app. auto.
Qed.

(** Peels [emit], [set_errno] and [set_stdin] off the later world of a
    [grows] goal. *)
Ltac grows_tac :=
  repeat first
    [ apply grows_refl
    | assumption
    | eapply grows_trans;
      [| first [ apply grows_emit; reflexivity
               | apply grows_set_errno
               | apply grows_set_stdin ] ] ].

Lemma option_stage_trace tr :
  forallb option_stage_event tr = true ->
  compiled tr = [] /\ compile_errors tr = [] /\ executions tr = O.
Proof.
  induction tr as [|e tr IH]; [auto|]. cbn [forallb]. intros H.
  apply andb_true_iff in H. destruct H as [He Htr]. destruct (IH Htr) as [A [B C]].
  destruct e as [d| | | | |r]; try discriminate; cbn [compiled compile_errors executions]; auto.
  destruct d; try discriminate; auto.
Qed.

Lemma compile_errors_app tr1 tr2 :
  compile_errors (tr1 ++ tr2) = compile_errors tr1 ++ compile_errors tr2.
Proof.
  induction tr1 as [|e tr1 IH]; simpl; [reflexivity|].
  destruct e as [d| | | | |r]; simpl; try exact IH. destruct d; simpl; rewrite ?IH; reflexivity.
Qed.

Lemma executions_app tr1 tr2 :
  executions (tr1 ++ tr2) = (executions tr1 + executions tr2)%nat.
Proof.
  induction tr1 as [|e tr1 IH]; simpl; [reflexivity|].
  destruct e; simpl; rewrite IH; reflexivity.
Qed.

Lemma stdin_read_sizes_app tr1 tr2 :
  stdin_read_sizes (tr1 ++ tr2) = stdin_read_sizes tr1 ++ stdin_read_sizes tr2.
Proof.
  induction tr1 as [|e tr1 IH]; simpl; [reflexivity|].
  destruct e; simpl; rewrite IH; reflexivity.
Qed.

(** *** read_stdin (lines 169-194) *)

Lemma read_stdin_loop_reads : forall fuel ptr tlen w ptr' tlen' w',
  read_stdin_loop fuel ptr tlen w = Ret (ptr', tlen', w') ->
  exists sizes,
    trace w' = trace w ++ map Fread_stdin sizes /\
    Forall (fun n => (n <= chunk_size)%nat) sizes /\
    list_sum sizes = List.length (unread (stdin_stream w)) /\
    last sizes 1%nat = 0%nat.
Proof.
  induction fuel as [|fuel IH]; intros ptr tlen w ptr' tlen' w'; [discriminate|].
  cbn [Ucode.read_stdin_loop].
  pose proof (fread_empty chunk_size (stdin_stream w) chunk_size_pos) as Hempty.
  pose proof (fread_app chunk_size (stdin_stream w)) as Happ.
  assert (Hle : (List.length (fst (fread chunk_size (stdin_stream w))) <= chunk_size)%nat).
  { unfold fread. cbn [fst]. apply firstn_le_length. }
  destruct (fread chunk_size (stdin_stream w)) as [buf f1]. cbn [fst snd] in *.
  destruct (List.length buf =? 0)%nat eqn:E.
  - intros H; inversion H; subst. exists [0%nat].
    apply Nat.eqb_eq in E. rewrite E. cbn [trace emit set_stdin map].
    repeat split; [repeat constructor; lia|].
    assert (Hnil : unread (stdin_stream w) = []) by (apply Hempty; reflexivity).
    now rewrite Hnil.
  - intros H. apply IH in H. destruct H as [sizes [Ht [Hall [Hsum Hlast]]]].
    exists (List.length buf :: sizes). cbn [trace emit set_stdin stdin_stream] in Ht, Hsum.
    repeat split.
    + rewrite Ht. rewrite <- app_assoc. reflexivity.
    + constructor; assumption.
    + change (list_sum (List.length buf :: sizes))
        with (List.length buf + list_sum sizes)%nat.
      rewrite Hsum, <- Happ, length_app. reflexivity.
    + destruct sizes as [|n sizes]; [simpl in Hlast; discriminate | exact Hlast].
Qed.

(** X11: a first call of [read_stdin] always returns; it reads standard
    input in pieces of at most 128 bytes until a read delivers nothing,
    the pieces add up to all of standard input, and the source it returns
    is labelled [[stdin]] and holds exactly those bytes, whatever their
    number.  Standard input is left drained and [errno] untouched. *)
Theorem read_stdin_reads_everything_in_bounded_pieces :
  forall w,
  exists slot w' sizes,
    read_stdin None w
      = Ret (Some (mk_source "[stdin]" (mkFILE (unread (stdin_stream w))) 0), slot, w') /\
    new_events w w' = map Fread_stdin sizes /\
    Forall (fun n => (n <= 128)%nat) sizes /\
    list_sum sizes = List.length (unread (stdin_stream w)) /\
    last sizes 1%nat = 0%nat /\
    buffer_of slot = unread (stdin_stream w) /\
    unread (stdin_stream w') = [] /\
    errno w' = errno w.
Proof.
  intros w. destruct (read_stdin_captures w) as [w' [Hrun Hdr]].
  eexists. exists w'. 
  assert (Hloop : exists ptr tlen,
             read_stdin_loop (S (List.length (unread (stdin_stream w)))) None 0%nat w
             = Ret (ptr, tlen, w')).
  { unfold read_stdin in Hrun.
    destruct (read_stdin_loop _ None 0%nat w) as [[[ptr tlen] w1]| |]; cbn [bind] in Hrun;
      try discriminate.
    inversion Hrun; subst. eauto. }
  destruct Hloop as [ptr [tlen Hloop]].
  destruct (read_stdin_loop_drains (S (List.length (unread (stdin_stream w)))) None w)
    as [w2 [Hrun2 [_ Herr]]]; [lia|].
  cbn [buffer_of List.length] in Hrun2. rewrite Hloop in Hrun2.
  assert (w2 = w') by congruence. subst w2.
  apply read_stdin_loop_reads in Hloop. destruct Hloop as [sizes [Ht [Hall [Hsum Hlast]]]].
  exists sizes. split; [exact Hrun|].
  repeat split; auto.
  - unfold new_events. rewrite Ht. apply new_events_app.
  - destruct (unread (stdin_stream w)); reflexivity.
Qed.

(** *** parse_envfile (lines 196-228) *)

Section Envfile_properties.

Variable tokener : json_tokener.

Local Abbreviation parse_envfile_loop := (Ucode.parse_envfile_loop tokener).
Local Abbreviation parse_envfile := (Ucode.parse_envfile tokener).

Lemma fread_whole_chunk chunk rest :
  List.length chunk = chunk_size ->
  fread chunk_size (mkFILE (chunk ++ rest)) = (chunk, mkFILE rest).
Proof.
  intros H. unfold fread. cbn [unread]. rewrite <- H.
  rewrite firstn_app, skipn_app, firstn_all, skipn_all, Nat.sub_diag. simpl.
  now rewrite app_nil_r.
Qed.

(** Once the tokener has stopped asking for more at the end of a chunk,
    what follows that chunk plays no part. *)
Lemma parse_envfile_loop_ignores_rest : forall fuel1 fuel2 tok pre rest rv0 err0 rv e f',
  (fuel1 <= fuel2)%nat ->
  Nat.divide chunk_size (List.length pre) ->
  err0 = None \/ err0 = Some json_tokener_continue ->
  e <> json_tokener_continue ->
  parse_envfile_loop fuel1 tok (mkFILE pre) rv0 err0 = Ret (rv, Some e, f') ->
  exists f'', parse_envfile_loop fuel2 tok (mkFILE (pre ++ rest)) rv0 err0 = Ret (rv, Some e, f'').
Proof.
  induction fuel1 as [|fuel1 IH]; intros fuel2 tok pre rest rv0 err0 rv e f' Hle Hdiv Herr0 He;
    [discriminate|].
  destruct fuel2 as [|fuel2]; [lia|].
  destruct Hdiv as [k Hk]. destruct k as [|k].
  - (* no chunk at all: the loop returns what it was given *)
    destruct pre; [|simpl in Hk; discriminate].
    cbn [Ucode.parse_envfile_loop]. unfold fread at 1. cbn [unread firstn skipn List.length Nat.eqb].
    unfold chunk_size at 1 2. cbn [firstn skipn List.length Nat.eqb].
    intros H; inversion H; subst. destruct Herr0 as [H0|H0]; [discriminate|].
    inversion H0; subst. contradiction.
  - (* a first whole chunk, then the rest of [pre] *)
    assert (Hsplit : pre = firstn chunk_size pre ++ skipn chunk_size pre)
      by (symmetry; apply firstn_skipn).
    assert (Hlen : List.length (firstn chunk_size pre) = chunk_size).
    { apply firstn_length_le. rewrite Hk. unfold chunk_size. lia. }
    assert (Hlen' : List.length (skipn chunk_size pre) = (k * chunk_size)%nat).
    { rewrite length_skipn, Hk. unfold chunk_size. lia. }
    revert Hsplit Hlen Hlen'.
    generalize (firstn chunk_size pre) as chunk. generalize (skipn chunk_size pre) as pre'.
    intros pre' chunk Hsplit Hlen Hlen'.
    rewrite Hsplit. rewrite <- app_assoc.
    cbn [Ucode.parse_envfile_loop].
    rewrite (fread_whole_chunk chunk pre' Hlen), (fread_whole_chunk chunk (pre' ++ rest) Hlen).
    rewrite Hlen. change (chunk_size =? 0)%nat with false. cbn iota.
    destruct (json_tokener_parse_ex tokener tok chunk) as [rv1 tok1].
    destruct (tokener_error_eqb (json_tokener_get_error tokener tok1) json_tokener_continue)
      eqn:Ec.
    + intros H. apply (IH fuel2 tok1 pre' rest rv1 _ rv e f'); auto; try lia.
      * exists k. exact Hlen'.
      * right. destruct (json_tokener_get_error tokener tok1); try discriminate. reflexivity.
    + intros H. inversion H; subst. eauto.
Qed.

(** X12: [parse_envfile] stops reading at the end of the 128-byte chunk
    after which the tokener no longer asks for more: the bytes that follow
    that chunk in the source change nothing, neither the value returned
    nor what is released, whatever they are. *)
Theorem parse_envfile_ignores_what_follows_the_deciding_chunk :
  forall pre rest w rv e f',
    Nat.divide 128 (List.length pre) ->
    parse_envfile_loop (S (List.length pre)) (xjs_new_tokener tokener) (mkFILE pre) Jnull None
    = Ret (rv, Some e, f') ->
    e <> json_tokener_continue ->
    parse_envfile (mkFILE (pre ++ rest)) w = parse_envfile (mkFILE pre) w.
Proof.
  intros pre rest w rv e f' Hdiv Hloop He.
  destruct (parse_envfile_loop_ignores_rest (S (List.length pre))
              (S (List.length (pre ++ rest))) (xjs_new_tokener tokener)
              pre rest Jnull None rv e f') as [f'' Hrun]; auto.
  { rewrite length_app. lia. }
  unfold Ucode.parse_envfile. cbn [unread]. rewrite Hrun, Hloop. reflexivity.
Qed.

(** X19: [parse_envfile] returns a value other than NULL exactly when the
    tokener ended with success on an object; the value is that object, and
    only the tokener is released. *)
Theorem parse_envfile_accepts_exactly_completed_objects :
  forall f w v w',
    (parse_envfile f w = Ret (v, w') /\ v <> Jnull) <->
    (is_object v = true /\
     w' = emit (Release the_tokener) w /\
     exists f', parse_envfile_loop (S (List.length (unread f))) (xjs_new_tokener tokener)
                                   f Jnull None
                = Ret (v, Some json_tokener_success, f')).
Proof.
  intros f w v w'. unfold Ucode.parse_envfile. split.
  - intros [H Hv].
    destruct (parse_envfile_loop _ _ _ _ _) as [[[rv err] f']| |]; cbn [bind] in H;
      try discriminate.
    destruct err as [e|]; [|discriminate].
    destruct (negb (tokener_error_eqb e json_tokener_success)) eqn:E1; cbn [orb] in H.
    + inversion H; subst. contradiction.
    + destruct (is_object rv) eqn:E2; cbn [negb] in H; inversion H; subst;
        [|contradiction].
      repeat split; auto. exists f'. destruct e; try discriminate. reflexivity.
  - intros [Hobj [Hw [f' Hloop]]]. rewrite Hloop. cbn [bind tokener_error_eqb negb orb].
    rewrite Hobj. cbn [negb]. subst w'. split; [reflexivity|].
    destruct v; discriminate.
Qed.

End Envfile_properties.

Lemma parse_envfile_ignores_what_follows_the_deciding_chunk_witness :
  let pre := bytes_of_string "{}" ++ repeat 32 126 in
  let rest := bytes_of_string "] not JSON" in
  let w := Reference.world0 [] in
  Ucode.parse_envfile Reference.ref_tokener (mkFILE (pre ++ rest)) w =
  Ucode.parse_envfile Reference.ref_tokener (mkFILE pre) w.
Proof.
  intros pre rest w.
  apply (parse_envfile_ignores_what_follows_the_deciding_chunk Reference.ref_tokener
           pre rest w (Jobject []) json_tokener_success (mkFILE [])).
  - exists 1%nat. reflexivity.
  - vm_compute. reflexivity.
  - discriminate.
Defined.

(** *** The option loop (main, lines 251-362) *)

Section Loop_properties.

Variable tokener : json_tokener.
Variable file_system : string -> option (list Z).

Local Abbreviation parse_envfile := (Ucode.parse_envfile tokener).
Local Abbreviation merge_request := (Ucode.merge_request tokener).
Local Abbreviation option_step := (Ucode.option_step tokener file_system).
Local Abbreviation getopt_loop := (Ucode.getopt_loop tokener file_system).

Lemma parse_envfile_grows f w v w' :
  parse_envfile f w = Ret (v, w') -> grows option_stage_event w w'.
Proof.
  unfold Ucode.parse_envfile.
  destruct (Ucode.parse_envfile_loop _ _ _ _ _ _) as [[[rv err] f']| |]; simpl; try discriminate.
  destruct err as [e|]; [|discriminate].
  destruct (_ || _); intros H; inversion H; subst; grows_tac.
Qed.

Lemma read_stdin_grows ptr w src ptr' w' :
  read_stdin ptr w = Ret (src, ptr', w') -> grows option_stage_event w w'.
Proof.
  destruct ptr as [b|].
  - rewrite read_stdin_guard. intros H; inversion H; subst. grows_tac.
  - unfold read_stdin.
    destruct (read_stdin_loop _ None 0%nat w) as [[[p t] w1]| |] eqn:E; cbn [bind];
      try discriminate.
    intros H; inversion H; subst.
    apply read_stdin_loop_reads in E. destruct E as [sizes [Ht _]].
    exists (map Fread_stdin sizes). split; [exact Ht|].
    clear. induction sizes; simpl; auto.
Qed.

(** What a merge request leaves behind. *)
Lemma merge_request_effect opt c_gt optarg envfile l w fl w' :
  merge_request opt c_gt optarg envfile l w = Ret (fl, w') ->
  grows option_stage_event w w' /\
  match fl with
  | Next l' =>
      exists o, is_null o = false /\
                l' = with_env l (merge_env (env l) c_gt optarg o)
  | Goto_out l' rv => l' = l /\ rv = 1
  end.
Proof.
  unfold Ucode.merge_request.
  destruct (parse_envfile (fp envfile) w) as [[o w1]| |] eqn:E; cbn [bind]; try discriminate.
  apply parse_envfile_grows in E.
  destruct (is_null o) eqn:En; intros H; inversion H; subst; (split; [grows_tac|]); eauto.
Qed.

(** What one option leaves behind: new events of the option stage only;
    the module list and the flags as the option letter says; an exit with
    0 or 1 that keeps them as they were. *)
Lemma option_step_effect o l w fl w' :
  option_step o l w = Ret (fl, w') ->
  grows option_stage_event w w' /\
  (env_ok (env l) = true -> env_ok (env (flow_locals fl)) = true) /\
  match fl with
  | Next l' =>
      modules l' = modules_after o (modules l) /\ config l' = config_after o (config l)
  | Goto_out l' rv =>
      modules l' = modules l /\ config l' = config l /\ env l' = env l /\ (rv = 0 \/ rv = 1)
  end.
Proof.
  destruct o; cbn [Ucode.option_step modules_after config_after].
  - intros H; inversion H; subst. cbn [flow_locals]. repeat split; auto. grows_tac.
  - destruct (String.eqb optarg "-").
    + destruct (read_stdin (stdin_buf l) _) as [[[src buf] w1]| |] eqn:E; cbn [bind];
        try discriminate.
      apply read_stdin_grows in E.
      assert (Hpre : grows option_stage_event w
                       match source l with
                       | Some _ => emit (Print Options_exclusive) w
                       | None => w
                       end) by (destruct (source l); grows_tac).
      pose proof (grows_trans _ _ _ _ Hpre E) as Hg. clear Hpre E.
      destruct src; intros H; inversion H; subst; cbn [flow_locals];
        (repeat split; auto); grows_tac.
    + cbn [bind]. destruct (Ucode.uc_source_new_file file_system optarg);
        intros H; inversion H; subst; cbn [flow_locals];
        (repeat split; auto); destruct (source l); grows_tac.
  - intros H; inversion H; subst. cbn [flow_locals]. repeat split; auto. grows_tac.
  - intros H; inversion H; subst. cbn [flow_locals]. repeat split; auto. grows_tac.
  - intros H; inversion H; subst. cbn [flow_locals]. repeat split; auto.
    destruct (source l); grows_tac.
  - intros H; inversion H; subst. cbn [flow_locals]. repeat split; auto. grows_tac.
  - destruct (split_optarg optarg) as [[c_gt pre] c].
    intros H. apply merge_request_effect in H. destruct H as [Hg Hfl].
    split; [exact Hg|].
    destruct fl as [l'|l' rv]; cbn [flow_locals].
    + destruct Hfl as [o [Hn ->]]. split; [|split; reflexivity].
      intros Hok. unfold env_ok. cbn [env with_env].
      rewrite (merge_env_ok _ c_gt pre o Hok). apply orb_true_r.
    + destruct Hfl as [-> ->]. repeat split; auto.
  - destruct (split_optarg optarg) as [[c_gt pre] c].
    assert (Hopen : forall envfile l1 w1,
               grows option_stage_event w w1 ->
               env l1 = env l -> modules l1 = modules l -> config l1 = config l ->
               match envfile with
               | Some envfile => merge_request "E"%char c_gt pre envfile l1 w1
               | None => Ret (Goto_out l1 1, emit (Print (Failed_to_open c (errno w1))) w1)
               end = Ret (fl, w') ->
               grows option_stage_event w w' /\
               (env_ok (env l) = true -> env_ok (env (flow_locals fl)) = true) /\
               match fl with
               | Next l' => modules l' = modules l /\ config l' = config l
               | Goto_out l' rv =>
                   modules l' = modules l /\ config l' = config l /\ env l' = env l /\
                   (rv = 0 \/ rv = 1)
               end).
    { intros envfile l1 w1 Hg He Hm Hc. destruct envfile as [ef|].
      - intros H. apply merge_request_effect in H. destruct H as [Hg' Hfl].
        split; [eapply grows_trans; eauto|].
        destruct fl as [l'|l' rv]; cbn [flow_locals].
        + destruct Hfl as [o [Hn ->]]. cbn [env modules config with_env].
          split; [|split; assumption].
          intros Hok. unfold env_ok. rewrite He.
          rewrite (merge_env_ok _ c_gt pre o Hok). apply orb_true_r.
        + destruct Hfl as [-> ->]. rewrite He. repeat split; auto.
      - intros H; inversion H; subst. cbn [flow_locals]. rewrite He.
        repeat split; auto. grows_tac. }
    destruct (String.eqb c "-").
    + destruct (read_stdin (stdin_buf l) w) as [[[src buf] w1]| |] eqn:E; cbn [bind];
        try discriminate.
      apply read_stdin_grows in E. apply Hopen; auto.
    + cbn [bind]. apply Hopen; auto.
      destruct (Ucode.uc_source_new_file file_system c); grows_tac.
  - intros H; inversion H; subst. cbn [flow_locals]. repeat split; auto. grows_tac.
  - intros H; inversion H; subst. cbn [flow_locals]. repeat split; auto. grows_tac.
Qed.

Lemma modules_after_ok o m : modules_ok m = true -> modules_ok (modules_after o m) = true.
Proof. destruct o, m; simpl; auto; discriminate. Qed.

(** The loop as a whole: the events of the option stage only, the module
    list and the flags folded over the options, an exit with 0 or 1. *)
Lemma getopt_loop_effect os : forall l w fl w',
  getopt_loop os l w = Ret (fl, w') ->
  grows option_stage_event w w' /\
  (env_ok (env l) = true -> env_ok (env (flow_locals fl)) = true) /\
  (modules_ok (modules l) = true -> modules_ok (modules (flow_locals fl)) = true) /\
  match fl with
  | Next l' =>
      modules l' = fold_left (fun m o => modules_after o m) os (modules l) /\
      config l' = fold_left (fun c o => config_after o c) os (config l)
  | Goto_out _ rv => rv = 0 \/ rv = 1
  end.
Proof.
  induction os as [|o os IH]; intros l w fl w'; cbn [Ucode.getopt_loop].
  - intros H; inversion H; subst. cbn [flow_locals fold_left]. repeat split; auto.
    apply grows_refl.
  - destruct (option_step o l w) as [[fl1 w1]| |] eqn:E; cbn [bind]; try discriminate.
    apply option_step_effect in E. destruct E as [Hg [Henv Hfl]].
    destruct fl1 as [l1|l1 rv1]; cbn [flow_locals] in *.
    + destruct Hfl as [Hm Hc]. intros H. apply IH in H.
      destruct H as [Hg' [Henv' [Hmod' Hfl']]].
      split; [eapply grows_trans; eauto|]. split; [auto|]. split.
      * intros Hok. apply Hmod'. rewrite Hm. now apply modules_after_ok.
      * destruct fl as [l'|l' rv]; [|exact Hfl'].
        cbn [fold_left]. rewrite <- Hm, <- Hc. exact Hfl'.
    + destruct Hfl as [Hm [Hc [He Hrv]]]. intros H; inversion H; subst.
      cbn [flow_locals]. repeat split; auto. now rewrite Hm.
Qed.

(** X7: the option loop keeps the shape of its two containers: the
    configuration object is NULL or an object and the module list is NULL
    or an array before every option and when the loop ends, however it
    ends. *)
Theorem option_loop_keeps_container_shapes :
  forall os l w fl w',
    env_ok (env l) = true -> modules_ok (modules l) = true ->
    getopt_loop os l w = Ret (fl, w') ->
    env_ok (env (flow_locals fl)) = true /\ modules_ok (modules (flow_locals fl)) = true.
Proof.
  intros os l w fl w' He Hm H. apply getopt_loop_effect in H.
  destruct H as [_ [He' [Hm' _]]]. auto.
Qed.

Lemma fold_modules_after os : forall m,
  modules_ok m = true ->
  fold_left (fun m o => modules_after o m) os m =
  match module_args os with
  | [] => m
  | args => Jarray (array_items m ++ map Jstring args)
  end.
Proof.
  induction os as [|o os IH]; intros m Hok; [reflexivity|].
  cbn [fold_left]. rewrite IH by now apply modules_after_ok.
  destruct o; try reflexivity.
  cbn [module_args modules_after].
  assert (Hadd : json_object_array_add (if is_null m then xjs_new_array else m) (Jstring optarg)
                 = Jarray (array_items m ++ [Jstring optarg])).
  { destruct m; try discriminate; reflexivity. }
  rewrite Hadd. cbn [array_items].
  destruct (module_args os); [reflexivity|].
  rewrite <- app_assoc. reflexivity.
Qed.

(** X8: when the option loop runs to its end, the module list holds
    the arguments of the [-m] options, in command-line order and with
    repetitions, after what it held before; the other options, wherever
    they stand, do not touch it, and without any [-m] it stays as it was
    (NULL at the start of [main]). *)
Theorem module_list_follows_command_line_order :
  forall os l w l' w',
    modules_ok (modules l) = true ->
    getopt_loop os l w = Ret (Next l', w') ->
    modules l' =
    match module_args os with
    | [] => modules l
    | args => Jarray (array_items (modules l) ++ map Jstring args)
    end.
Proof.
  intros os l w l' w' Hok H. apply getopt_loop_effect in H.
  destruct H as [_ [_ [_ [Hm _]]]]. rewrite Hm. now apply fold_modules_after.
Qed.

Lemma fold_config_after os : forall c,
  fold_left (fun c o => config_after o c) os c =
  mk_config (strict_declarations c || existsb is_Opt_S os)
            (lstrip_blocks c && negb (existsb is_Opt_l os))
            (trim_blocks c && negb (existsb is_Opt_r os)).
Proof.
  induction os as [|o os IH]; intros [s l r].
  - simpl. now rewrite orb_false_r, !andb_true_r.
  - cbn [fold_left]. rewrite IH.
    destruct o; cbn [config_after existsb is_Opt_S is_Opt_l is_Opt_r
                     strict_declarations lstrip_blocks trim_blocks orb negb andb];
      try reflexivity.
    + now rewrite andb_false_r.
    + now rewrite andb_false_r.
    + now rewrite orb_true_r.
Qed.

(** X9: when the option loop runs to its end, strict declarations are on
    if they were on or some [-S] was given, leading-whitespace stripping
    is on if it was on and no [-l] was given, and trailing-newline
    trimming is on if it was on and no [-r] was given; the order and the
    number of these options, and all other options, make no difference. *)
Theorem parse_flags_follow_option_letters :
  forall os l w l' w',
    getopt_loop os l w = Ret (Next l', w') ->
    config l' =
    mk_config (strict_declarations (config l) || existsb is_Opt_S os)
              (lstrip_blocks (config l) && negb (existsb is_Opt_l os))
              (trim_blocks (config l) && negb (existsb is_Opt_r os)).
Proof.
  intros os l w l' w' H. apply getopt_loop_effect in H.
  destruct H as [_ [_ [_ [_ Hc]]]]. rewrite Hc. apply fold_config_after.
Qed.

Lemma getopt_loop_app os1 : forall os2 l w,
  getopt_loop (os1 ++ os2) l w =
  bind (getopt_loop os1 l w)
       (fun r => match fst r with
                 | Next l1 => getopt_loop os2 l1 (snd r)
                 | Goto_out l1 rv => Ret (Goto_out l1 rv, snd r)
                 end).
Proof.
  induction os1 as [|o os1 IH]; intros os2 l w; [reflexivity|].
  cbn [app Ucode.getopt_loop].
  destruct (option_step o l w) as [[fl w1]| |]; cbn [bind]; try reflexivity.
  destruct fl as [l1|l1 rv]; [apply IH | reflexivity].
Qed.

(** X10: the option loop stops at the first option that leaves it, and
    the options after that one are never looked at: a run of options that
    ends the loop ends it the same way whatever follows, and [-h] ends it
    with result 0 and the usage text once the options before it have run
    to their end. *)
Theorem options_after_an_exit_are_ignored :
  forall os1 os2 l w,
    (forall l1 rv w1,
        getopt_loop os1 l w = Ret (Goto_out l1 rv, w1) ->
        getopt_loop (os1 ++ os2) l w = Ret (Goto_out l1 rv, w1)) /\
    (forall l1 w1,
        getopt_loop os1 l w = Ret (Next l1, w1) ->
        getopt_loop (os1 ++ Opt_h :: os2) l w = Ret (Goto_out l1 0, emit (Print Usage) w1)) /\
    getopt_loop (os1 ++ Opt_h :: os2) l w = getopt_loop (os1 ++ [Opt_h]) l w.
Proof.
  intros os1 os2 l w. split; [|split].
  - intros l1 rv w1 H. rewrite getopt_loop_app, H. reflexivity.
  - intros l1 w1 H. rewrite getopt_loop_app, H. reflexivity.
  - rewrite !getopt_loop_app.
    destruct (getopt_loop os1 l w) as [[fl w1]| |]; reflexivity.
Qed.

(** An option that does not ask for standard input leaves it alone. *)
Lemma option_step_without_stdin o l w fl w' :
  wants_stdin o = false ->
  option_step o l w = Ret (fl, w') ->
  quiet w w' /\ stdin_buf (flow_locals fl) = stdin_buf l.
Proof.
  destruct o; cbn [Ucode.option_step wants_stdin]; intros Hw.
  - intros H; inversion H; subst; simpl. split; [quiet_tac | reflexivity].
  - rewrite Hw. cbn [bind]. destruct (Ucode.uc_source_new_file file_system optarg);
      destruct (source l); intros H; inversion H; subst; simpl;
      (split; [quiet_tac | reflexivity]).
  - intros H; inversion H; subst; simpl. split; [quiet_tac | reflexivity].
  - intros H; inversion H; subst; simpl. split; [quiet_tac | reflexivity].
  - destruct (source l); intros H; inversion H; subst; simpl;
      (split; [quiet_tac | reflexivity]).
  - intros H; inversion H; subst; simpl. split; [quiet_tac | reflexivity].
  - destruct (split_optarg optarg) as [[c_gt pre] c].
    intros H. apply merge_request_quiet in H. exact H.
  - destruct (split_optarg optarg) as [[c_gt pre] c]. cbn [snd] in Hw. rewrite Hw.
    cbn [bind]. destruct (Ucode.uc_source_new_file file_system c) as [ef|].
    + intros H. apply merge_request_quiet in H. exact H.
    + intros H; inversion H; subst; simpl. split; [quiet_tac | reflexivity].
  - intros H; inversion H; subst; simpl. split; [quiet_tac | reflexivity].
  - intros H; inversion H; subst; simpl. split; [quiet_tac | reflexivity].
Qed.

Lemma getopt_loop_without_stdin os : forall l w fl w',
  forallb (fun o => negb (wants_stdin o)) os = true ->
  getopt_loop os l w = Ret (fl, w') ->
  quiet w w' /\ stdin_buf (flow_locals fl) = stdin_buf l.
Proof.
  induction os as [|o os IH]; intros l w fl w' Hall; cbn [Ucode.getopt_loop].
  - intros H; inversion H; subst. split; [apply quiet_refl | reflexivity].
  - cbn [forallb] in Hall. apply andb_true_iff in Hall. destruct Hall as [Ho Hall].
    apply negb_true_iff in Ho.
    destruct (option_step o l w) as [[fl1 w1]| |] eqn:E; cbn [bind]; try discriminate.
    apply (option_step_without_stdin _ _ _ _ _ Ho) in E. destruct E as [Hq Hb].
    destruct fl1 as [l1|l1 rv1]; cbn [flow_locals] in Hb.
    + intros H. apply (IH _ _ _ _ Hall) in H. destruct H as [Hq' Hb'].
      split; [eapply quiet_trans; eauto | congruence].
    + intros H; inversion H; subst. auto.
Qed.

End Loop_properties.

(** *** main as a whole (lines 230-391) *)

Lemma new_events_split w w1 w' t1 t2 :
  trace w1 = trace w ++ t1 -> trace w' = trace w1 ++ t2 -> new_events w w' = t1 ++ t2.
Proof.
  intros H1 H2. unfold new_events. rewrite H2, H1, <- app_assoc. apply new_events_app.
Qed.

Lemma main_out_trace w : trace (main_out w) =
  trace w ++ [Release the_modules; Release the_env; Release the_source].
Proof. unfold main_out. cbn [trace emit]. now rewrite <- !app_assoc. Qed.

Section Main_properties.

Variable char_signed : bool.
Variable LIB_SEARCH_PATH : string.
Variable tokener : json_tokener.
Variable functions : list (string * json).
Variable file_system : string -> option (list Z).
Variable uc_function : Type.
Variable uc_compile : uc_parse_config -> uc_source -> uc_function + string.
Variable uc_vm_execute : uc_function -> uc_prototype -> json -> Z.

Local Abbreviation getopt_loop := (Ucode.getopt_loop tokener file_system).
Local Abbreviation uc_source_new_file := (Ucode.uc_source_new_file file_system).
Local Abbreviation skip_shebang := (Ucode.skip_shebang char_signed).
Local Abbreviation parse :=
  (Ucode.parse char_signed LIB_SEARCH_PATH functions uc_function uc_compile uc_vm_execute).
Local Abbreviation resolve_and_parse :=
  (Ucode.resolve_and_parse char_signed LIB_SEARCH_PATH functions file_system
                           uc_function uc_compile uc_vm_execute).
Local Abbreviation main :=
  (Ucode.main char_signed LIB_SEARCH_PATH tokener functions file_system
              uc_function uc_compile uc_vm_execute).

Lemma parse_driver_events fuel config src shebang env modules w rc w' :
  parse fuel config src shebang env modules w = Ret (rc, w') ->
  exists tr, trace w' = trace w ++ tr /\ driver_events rc tr /\
             stdin_stream w' = stdin_stream w.
Proof.
  intros H.
  assert (Hs : stdin_stream w' = stdin_stream w).
  { revert H. unfold Ucode.parse.
    destruct (if shebang then skip_shebang fuel src else Ret src) as [src'| |];
      cbn [bind]; try discriminate.
    destruct (uc_compile config src'); intros H; inversion H; subst; reflexivity. }
  apply parse_trace in H. destruct H as [src' [_ Ht]].
  destruct (uc_compile config src') as [entry|msg]; destruct Ht as [Hrc Ht];
    eexists; (split; [exact Ht|]); (split; [|exact Hs]).
  - apply driver_ran. rewrite Hrc. destruct (_ =? 0); auto.
  - apply driver_compile_failed. exact Hrc.
Qed.

(** The shape of every run of [main] that returns: events of the option
    stage, then possibly those of the driver, then the three releases
    after the label [out]. *)
Lemma main_shape fuel argv w rv w' :
  main fuel argv w = Ret (rv, w') ->
  exists t_opt t_drv,
    new_events w w' = t_opt ++ t_drv ++ [Release the_modules; Release the_env; Release the_source] /\
    forallb option_stage_event t_opt = true /\
    ((t_drv = [] /\ (rv = 0 \/ rv = 1)) \/ driver_events rv t_drv).
Proof.
  unfold Ucode.main. destruct (argc argv =? 1).
  - intros H; inversion H; subst. exists [Print Usage], [].
    split; [|split; [reflexivity | left; auto]].
    unfold new_events. rewrite main_out_trace. cbn [trace emit].
    rewrite <- app_assoc. apply new_events_app.
  - destruct (getopt_loop (opts argv) initial_locals w) as [[fl w1]| |] eqn:E; cbn [bind];
      try discriminate.
    apply getopt_loop_effect in E. destruct E as [[t_opt [Ht Hf]] [_ [_ Hfl]]].
    destruct fl as [l1|l1 rv1].
    + destruct (Ucode.resolve_and_parse _ _ _ _ _ _ _ fuel (operand argv) l1 w1)
        as [[rv2 w2]| |] eqn:Er; cbn [bind]; try discriminate.
      intros H; inversion H; subst. clear H.
      assert (Hd : exists tr, trace w2 = trace w1 ++ tr /\ driver_events rv tr).
      { revert Er. unfold Ucode.resolve_and_parse.
        destruct (source l1) as [s|]; [|destruct (operand argv) as [path|]].
        - intros H. apply parse_driver_events in H. destruct H as [tr [A [B _]]]. eauto.
        - destruct (uc_source_new_file path) as [s|].
          + intros H. apply parse_driver_events in H. destruct H as [tr [A [B _]]]. eauto.
          + intros H; inversion H; subst. eexists. split; [reflexivity|].
            now apply driver_open_failed.
        - intros H; inversion H; subst. eexists. split; [reflexivity|].
          now apply driver_no_source. }
      destruct Hd as [t_drv [Ht2 Hd]].
      exists t_opt, t_drv. split; [|split; [exact Hf | right; exact Hd]].
      unfold new_events. rewrite main_out_trace, Ht2, Ht.
      rewrite <- !app_assoc. apply new_events_app.
    + intros H; inversion H; subst. exists t_opt, [].
      split; [|split; [exact Hf | left; auto]].
      unfold new_events. rewrite main_out_trace, Ht.
      rewrite <- !app_assoc. apply new_events_app.
Qed.

(** X14: the result of [main], whenever it returns, is 0, 1 or 2; it is
    2 exactly when the compiler reported an error; at most one source is
    compiled and the virtual machine runs at most once, only after a
    compilation and never when the result is 2; and the last three events
    of every run are the releases of the module list, the configuration
    object and the source. *)
Theorem main_result_and_trace_shape :
  forall fuel argv w rv w',
    main fuel argv w = Ret (rv, w') ->
    let tr := new_events w w' in
    (rv = 0 \/ rv = 1 \/ rv = 2) /\
    (rv = 2 <-> compile_errors tr <> []) /\
    (executions tr <= List.length (compiled tr) <= 1)%nat /\
    (rv = 2 -> executions tr = 0%nat) /\
    exists before, tr = before ++ [Release the_modules; Release the_env; Release the_source].
Proof.
  intros fuel argv w rv w' H tr. unfold tr. clear tr.
  apply main_shape in H. destruct H as [t_opt [t_drv [Ht [Hf Hd]]]].
  destruct (option_stage_trace _ Hf) as [Hc [Hce Hex]].
  rewrite Ht. rewrite !compile_errors_app, !compiled_app, !executions_app, Hc, Hce, Hex.
  cbn [app compile_errors compiled executions].
  assert (Hlast : exists before,
             t_opt ++ t_drv ++ [Release the_modules; Release the_env; Release the_source]
             = before ++ [Release the_modules; Release the_env; Release the_source]).
  { exists (t_opt ++ t_drv). now rewrite <- app_assoc. }
  destruct Hd as [[-> Hrv] | Hd];
    [| destruct Hd as [Hrv | path e Hrv | config src msg Hrv | config src root mods Hrv]];
    cbn; repeat split; try exact Hlast; try lia; try tauto;
    try (intros; subst; discriminate).
  all: try (destruct Hrv as [Hrv | Hrv]; subst; first [tauto | discriminate | intros; discriminate]).
Qed.

Lemma parse_quiet fuel config src shebang env modules w rc w' :
  parse fuel config src shebang env modules w = Ret (rc, w') -> quiet w w'.
Proof.
  intros H. apply parse_driver_events in H. destruct H as [tr [Ht [Hd Hs]]].
  split; [exact Hs|]. rewrite Ht, stdin_reads_app.
  destruct Hd; simpl; lia.
Qed.

(** X13: [main] reads standard input only when an option asks for it:
    with no [-i -] and no [-E] whose path is [-] among the options, a run
    that returns has not read from standard input and has left the stream
    as it was, whatever else happened. *)
Theorem stdin_is_read_only_on_request :
  forall fuel argv w rv w',
    forallb (fun o => negb (wants_stdin o)) (opts argv) = true ->
    main fuel argv w = Ret (rv, w') ->
    quiet w w'.
Proof.
  intros fuel argv w rv w' Hall. unfold Ucode.main. destruct (argc argv =? 1).
  - intros H; inversion H; subst. unfold main_out. quiet_tac.
  - destruct (getopt_loop (opts argv) initial_locals w) as [[fl w1]| |] eqn:E; cbn [bind];
      try discriminate.
    apply (getopt_loop_without_stdin _ _ _ _ _ _ _ Hall) in E. destruct E as [Hq _].
    destruct fl as [l1|l1 rv1].
    + destruct (Ucode.resolve_and_parse _ _ _ _ _ _ _ fuel (operand argv) l1 w1)
        as [[rv2 w2]| |] eqn:Er; cbn [bind]; try discriminate.
      intros H; inversion H; subst. clear H.
      assert (Hq2 : quiet w1 w2).
      { revert Er. unfold Ucode.resolve_and_parse.
        destruct (source l1) as [s|]; [|destruct (operand argv) as [path|]].
        - apply parse_quiet.
        - destruct (uc_source_new_file path) as [s|]; [apply parse_quiet|].
          intros H; inversion H; subst. quiet_tac.
        - intros H; inversion H; subst. quiet_tac. }
      unfold main_out. eapply quiet_trans; [exact Hq|]. eapply quiet_trans; [exact Hq2|].
      quiet_tac.
    + intros H; inversion H; subst. unfold main_out. eapply quiet_trans; [exact Hq|].
      quiet_tac.
Qed.

Lemma main_after_loop fuel argc os operand w l1 w1 :
  argc <> 1 ->
  getopt_loop os initial_locals w = Ret (Next l1, w1) ->
  main fuel (mk_cmdline argc os operand) w =
  bind (resolve_and_parse fuel operand l1 w1) (fun r => Ret (fst r, main_out (snd r))).
Proof.
  intros Hargc Hloop. unfold Ucode.main. cbn [Ucode.argc opts Ucode.operand].
  apply Z.eqb_neq in Hargc. rewrite Hargc, Hloop. cbn [bind].
  destruct (resolve_and_parse fuel operand l1 w1) as [[rv w2]| |]; reflexivity.
Qed.

(** A run whose option loop ended well and whose driver compiled: what
    was compiled is what the driver compiled. *)
Lemma compiled_after_loop os w l1 w1 w2 tr :
  getopt_loop os initial_locals w = Ret (Next l1, w1) ->
  trace w2 = trace w1 ++ tr ->
  compiled (new_events w (main_out w2)) = compiled tr.
Proof.
  intros Hloop Ht. apply getopt_loop_effect in Hloop.
  destruct Hloop as [[t_opt [Ht1 Hf]] _].
  destruct (option_stage_trace _ Hf) as [Hc _].
  unfold new_events. rewrite main_out_trace, Ht, Ht1. rewrite <- !app_assoc.
  rewrite new_events_app, !compiled_app, Hc. cbn. now rewrite app_nil_r.
Qed.

(** X15: when the option loop has left a source ([-i] or [-s] was given
    and nothing failed), [main] returns for every fuel, the compiler is
    handed exactly that source, from its first byte and with the offset
    base it had, and the positional operand plays no part at all: it is
    neither opened nor compiled, and the run is the same without it. *)
Theorem explicit_source_is_compiled_as_it_is :
  forall fuel argc os operand w l1 w1 s,
    argc <> 1 ->
    getopt_loop os initial_locals w = Ret (Next l1, w1) ->
    source l1 = Some s ->
    (exists rv w',
        main fuel (mk_cmdline argc os operand) w = Ret (rv, w') /\
        compiled (new_events w w') = [s]) /\
    main fuel (mk_cmdline argc os operand) w = main 0 (mk_cmdline argc os None) w.
Proof.
  intros fuel argc os operand w l1 w1 s Hargc Hloop Hs. split.
  - rewrite (main_after_loop fuel argc os operand w l1 w1 Hargc Hloop).
    unfold Ucode.resolve_and_parse. rewrite Hs.
    destruct (parse_compiles_given_source char_signed LIB_SEARCH_PATH functions uc_function
                uc_compile uc_vm_execute fuel (config l1) s (env l1) (modules l1) w1)
      as [rc [w2 [Hrun [tr [Ht Hc]]]]].
    rewrite Hrun. cbn [bind fst snd]. exists rc. eexists. split; [reflexivity|].
    rewrite (compiled_after_loop os w l1 w1 w2 tr Hloop Ht). exact Hc.
  - rewrite (main_after_loop fuel argc os operand w l1 w1 Hargc Hloop).
    rewrite (main_after_loop 0 argc os None w l1 w1 Hargc Hloop).
    unfold Ucode.resolve_and_parse. rewrite Hs. reflexivity.
Qed.

(** A run on the positional operand compiles what the shebang check
    leaves of the file. *)
Lemma positional_source_compiled fuel argc os path content src' w l1 w1 :
  argc <> 1 ->
  getopt_loop os initial_locals w = Ret (Next l1, w1) ->
  source l1 = None ->
  file_system path = Some content ->
  skip_shebang fuel (mk_source path (mkFILE content) 0) = Ret src' ->
  exists rv w',
    main fuel (mk_cmdline argc os (Some path)) w = Ret (rv, w') /\
    compiled (new_events w w') = [src'].
Proof.
  intros Hargc Hloop Hs Hfile Hskip.
  rewrite (main_after_loop fuel argc os (Some path) w l1 w1 Hargc Hloop).
  unfold Ucode.resolve_and_parse, Ucode.uc_source_new_file. rewrite Hs, Hfile.
  destruct (parse fuel (config l1) (mk_source path (mkFILE content) 0) true
                  (env l1) (modules l1) w1) as [[rc w2]| |] eqn:Hrun.
  - cbn [bind fst snd]. exists rc. eexists. split; [reflexivity|].
    apply parse_trace in Hrun. destruct Hrun as [s2 [Hs2 Ht]].
    rewrite Hskip in Hs2. inversion Hs2; subst s2.
    destruct (uc_compile (config l1) src'); destruct Ht as [_ Ht];
      rewrite (compiled_after_loop os w l1 w1 w2 _ Hloop Ht); reflexivity.
  - exfalso. revert Hrun. unfold Ucode.parse. rewrite Hskip. cbn [bind].
    destruct (uc_compile (config l1) src'); discriminate.
  - exfalso. revert Hrun. unfold Ucode.parse. rewrite Hskip. cbn [bind].
    destruct (uc_compile (config l1) src'); discriminate.
Qed.

(** X16: a run on a positional file that starts with [#!], whose first
    line holds no 0xFF byte and ends with a newline: with fuel for the
    line, [main] returns, and the compiler is handed the bytes after that
    newline with the offset base set to the length of the line after the
    marker plus one for the newline. *)
Theorem positional_shebang_line_is_skipped :
  forall fuel argc os path line body w l1 w1,
    argc <> 1 ->
    getopt_loop os initial_locals w = Ret (Next l1, w1) ->
    source l1 = None ->
    file_system path = Some (35 :: 33 :: line ++ 10 :: body) ->
    Forall line_byte line -> (List.length line < fuel)%nat ->
    exists rv w',
      main fuel (mk_cmdline argc os (Some path)) w = Ret (rv, w') /\
      compiled (new_events w w') = [mk_source path (mkFILE body) (List.length line + 1)].
Proof.
  intros fuel argc os path line body w l1 w1 Hargc Hloop Hs Hfile Hline Hfuel.
  eapply positional_source_compiled; eauto.
  apply (skip_shebang_line char_signed path line body 0 fuel Hline Hfuel).
Qed.

(** X17: a run on a positional file of at least two bytes that does not
    start with [#!] and whose first two bytes are not 0xFF: [main] returns
    for every fuel and the compiler is handed the whole file, the two
    bytes read by the check pushed back in front in their order, with a
    zero offset base. *)
Theorem positional_plain_file_is_compiled_whole :
  forall fuel argc os path b1 b2 rest w l1 w1,
    argc <> 1 ->
    getopt_loop os initial_locals w = Ret (Next l1, w1) ->
    source l1 = None ->
    file_system path = Some (b1 :: b2 :: rest) ->
    0 <= b1 < 255 -> 0 <= b2 < 255 -> ~ (b1 = 35 /\ b2 = 33) ->
    exists rv w',
      main fuel (mk_cmdline argc os (Some path)) w = Ret (rv, w') /\
      compiled (new_events w w') = [mk_source path (mkFILE (b1 :: b2 :: rest)) 0].
Proof.
  intros fuel argc os path b1 b2 rest w l1 w1 Hargc Hloop Hs Hfile H1 H2 Hne.
  eapply positional_source_compiled; eauto.
  apply (skip_shebang_pushback char_signed path b1 b2 rest 0 fuel H1 H2 Hne).
Qed.

(** X18: when the option loop has left no source and there is no
    positional operand, or the operand cannot be opened, [main] returns 1
    with the matching diagnostic and nothing is compiled or run. *)
Theorem missing_source_ends_with_1 :
  forall fuel argc os operand w l1 w1,
    argc <> 1 ->
    getopt_loop os initial_locals w = Ret (Next l1, w1) ->
    source l1 = None ->
    match operand with
    | Some path => file_system path = None
    | None => True
    end ->
    exists w',
      main fuel (mk_cmdline argc os operand) w = Ret (1, w') /\
      compiled (new_events w w') = [] /\
      executions (new_events w w') = 0%nat /\
      In (Print match operand with
                | Some path => Failed_to_open path E_fopen
                | None => Source_required
                end) (new_events w w').
Proof.
  intros fuel argc os operand w l1 w1 Hargc Hloop Hs Hop.
  rewrite (main_after_loop fuel argc os operand w l1 w1 Hargc Hloop).
  unfold Ucode.resolve_and_parse, Ucode.uc_source_new_file. rewrite Hs.
  pose proof Hloop as Hg. apply getopt_loop_effect in Hg.
  destruct Hg as [[t_opt [Ht1 Hf]] _].
  destruct (option_stage_trace _ Hf) as [Hc [_ Hex]].
  destruct operand as [path|]; [rewrite Hop|]; cbn [bind fst snd];
    eexists; (split; [reflexivity|]);
    unfold new_events; rewrite main_out_trace; cbn [trace emit set_errno]; rewrite Ht1;
    rewrite <- !app_assoc; rewrite new_events_app;
    rewrite !compiled_app, !executions_app, Hc, Hex; cbn;
    (repeat split; auto); apply in_or_app; right; left; reflexivity.
Qed.

(** The shebang check on a file of fewer than two bytes. *)
Lemma skip_shebang_short_file name content o fuel :
  (List.length content < 2)%nat ->
  Forall (fun b => 0 <= b < 255) content ->
  skip_shebang fuel (mk_source name (mkFILE content) o) =
  Ret (mk_source name
         (mkFILE (if char_signed then content
                  else content ++ repeat 255 (2 - List.length content)))
         o).
Proof.
  intros Hlen Hall. destruct content as [|b [|b' rest]]; [| |simpl in Hlen; lia].
  - destruct char_signed; reflexivity.
  - inversion Hall as [|? ? Hb _]; subst.
    unfold Ucode.skip_shebang, fgetc. cbn [fp unread].
    assert (Hc2 : (to_char char_signed EOF =? 33) = false) by (destruct char_signed; reflexivity).
    rewrite Hc2, andb_false_r. unfold ungetc.
    rewrite (to_char_not_EOF char_signed b Hb).
    rewrite (to_char_mod char_signed b) by (unfold is_byte; lia).
    destruct char_signed; reflexivity.
Qed.

(** X20: a run on a positional file of fewer than two bytes, none of them
    0xFF.  Where plain [char] is signed the compiler is handed the file as
    it is (an empty file stays empty).  Where it is unsigned the end of
    input read by the check is pushed back as a 0xFF byte, so the compiler
    is handed the file followed by 0xFF bytes up to a length of two. *)
Theorem positional_short_file :
  forall fuel argc os path content w l1 w1,
    argc <> 1 ->
    getopt_loop os initial_locals w = Ret (Next l1, w1) ->
    source l1 = None ->
    file_system path = Some content ->
    (List.length content < 2)%nat ->
    Forall (fun b => 0 <= b < 255) content ->
    exists rv w',
      main fuel (mk_cmdline argc os (Some path)) w = Ret (rv, w') /\
      compiled (new_events w w') =
      [mk_source path
         (mkFILE (if char_signed then content
                  else content ++ repeat 255 (2 - List.length content)))
         0].
Proof.
  intros fuel argc os path content w l1 w1 Hargc Hloop Hs Hfile Hlen Hall.
  eapply positional_source_compiled; eauto.
  apply skip_shebang_short_file; assumption.
Qed.

End Main_properties.

(** *** Runs of the reference instance for the further properties *)

Lemma option_loop_keeps_container_shapes_witness :
  let r := Reference.result_of
             (Reference.ref_getopt_loop [Opt_m "foo"; Opt_e "{}"; Opt_i "missing.uc"]
                                        initial_locals (Reference.world0 []))
             (Next initial_locals, Reference.world0 []) in
  env_ok (env (flow_locals (fst r))) = true /\
  modules_ok (modules (flow_locals (fst r))) = true.
Proof.
  intros r.
  apply (option_loop_keeps_container_shapes Reference.ref_tokener Reference.ref_files
           [Opt_m "foo"; Opt_e "{}"; Opt_i "missing.uc"] initial_locals (Reference.world0 [])
           (fst r) (snd r)).
  - reflexivity.
  - reflexivity.
  - vm_compute. reflexivity.
Defined.

Lemma module_list_follows_command_line_order_witness :
  let r := Reference.result_of
             (Reference.ref_getopt_loop [Opt_m "foo"; Opt_l; Opt_e "{}"; Opt_m "bar"; Opt_m "foo"]
                                        initial_locals (Reference.world0 []))
             (Next initial_locals, Reference.world0 []) in
  modules (flow_locals (fst r)) = Jarray [Jstring "foo"; Jstring "bar"; Jstring "foo"].
Proof.
  intros r.
  apply (module_list_follows_command_line_order Reference.ref_tokener Reference.ref_files
           [Opt_m "foo"; Opt_l; Opt_e "{}"; Opt_m "bar"; Opt_m "foo"]
           initial_locals (Reference.world0 []) (flow_locals (fst r)) (snd r)).
  - reflexivity.
  - vm_compute. reflexivity.
Defined.

Lemma parse_flags_follow_option_letters_witness :
  let r := Reference.result_of
             (Reference.ref_getopt_loop [Opt_l; Opt_S; Opt_m "foo"; Opt_l]
                                        initial_locals (Reference.world0 []))
             (Next initial_locals, Reference.world0 []) in
  config (flow_locals (fst r)) = mk_config true false true.
Proof.
  intros r.
  apply (parse_flags_follow_option_letters Reference.ref_tokener Reference.ref_files
           [Opt_l; Opt_S; Opt_m "foo"; Opt_l]
           initial_locals (Reference.world0 []) (flow_locals (fst r)) (snd r)).
  vm_compute. reflexivity.
Defined.

Lemma stdin_is_read_only_on_request_witness :
  let w := Reference.world0 (bytes_of_string "left alone") in
  let argv := mk_cmdline 4 [Opt_E "env.json"; Opt_s "print(1)"] None in
  let r := Reference.result_of (Reference.ref_main true 10 argv w) (0, w) in
  quiet w (snd r).
Proof.
  intros w argv r.
  apply (stdin_is_read_only_on_request true Reference.ref_search_path Reference.ref_tokener
           Reference.ref_functions Reference.ref_files uc_source Reference.ref_compile
           Reference.ref_execute 10%nat argv w (fst r) (snd r)).
  - reflexivity.
  - vm_compute. reflexivity.
Defined.

Lemma main_result_and_trace_shape_witness :
  let w := Reference.world0 [] in
  let argv := mk_cmdline 3 [Opt_s "?"] None in
  let r := Reference.result_of (Reference.ref_main true 10 argv w) (0, w) in
  fst r = 2 /\ compile_errors (new_events w (snd r)) <> [].
Proof.
  intros w argv r.
  pose proof (main_result_and_trace_shape true Reference.ref_search_path Reference.ref_tokener
                Reference.ref_functions Reference.ref_files uc_source Reference.ref_compile
                Reference.ref_execute 10%nat argv w (fst r) (snd r)
                ltac:(vm_compute; reflexivity)) as H.
  cbv zeta in H. destruct H as [_ [H _]].
  assert (Hrv : fst r = 2) by (vm_compute; reflexivity).
  split; [exact Hrv | exact (proj1 H Hrv)].
Defined.

Lemma explicit_source_is_compiled_as_it_is_witness :
  let w := Reference.world0 [] in
  exists rv w',
    Reference.ref_main true 0 (mk_cmdline 4 [Opt_s "#!x"] (Some "script.uc")) w = Ret (rv, w') /\
    compiled (new_events w w') = [Reference.inline_source "#!x"].
Proof.
  intros w.
  refine (proj1 (explicit_source_is_compiled_as_it_is true Reference.ref_search_path
                   Reference.ref_tokener Reference.ref_functions Reference.ref_files uc_source
                   Reference.ref_compile Reference.ref_execute 0%nat 4 [Opt_s "#!x"]
                   (Some "script.uc") w
                   (with_source initial_locals (Some (Reference.inline_source "#!x"))) w
                   (Reference.inline_source "#!x") _ _ _)).
  - discriminate.
  - reflexivity.
  - reflexivity.
Defined.

Lemma positional_shebang_line_is_skipped_witness :
  let w := Reference.world0 [] in
  exists rv w',
    Reference.ref_main true 3 (mk_cmdline 3 [Opt_S] (Some "script.uc")) w = Ret (rv, w') /\
    compiled (new_events w w') = [mk_source "script.uc" (mkFILE (bytes_of_string "BODY")) 3].
Proof.
  intros w.
  refine (positional_shebang_line_is_skipped true Reference.ref_search_path
            Reference.ref_tokener Reference.ref_functions Reference.ref_files uc_source
            Reference.ref_compile Reference.ref_execute 3%nat 3 [Opt_S] "script.uc"
            (bytes_of_string "/x") (bytes_of_string "BODY") w
            (with_config initial_locals (mk_config true true true)) w _ _ _ _ _ _).
  - discriminate.
  - reflexivity.
  - reflexivity.
  - reflexivity.
  - repeat constructor; unfold line_byte; simpl; try lia; discriminate.
  - simpl. lia.
Defined.

Lemma positional_plain_file_is_compiled_whole_witness :
  let w := Reference.world0 [] in
  exists rv w',
    Reference.ref_main false 0 (mk_cmdline 2 [] (Some "plain.uc")) w = Ret (rv, w') /\
    compiled (new_events w w') =
      [mk_source "plain.uc" (mkFILE (bytes_of_string "no-shebang")) 0].
Proof.
  intros w.
  refine (positional_plain_file_is_compiled_whole false Reference.ref_search_path
            Reference.ref_tokener Reference.ref_functions Reference.ref_files uc_source
            Reference.ref_compile Reference.ref_execute 0%nat 2 [] "plain.uc"
            110 111 (bytes_of_string "-shebang") w initial_locals w _ _ _ _ _ _ _).
  - discriminate.
  - reflexivity.
  - reflexivity.
  - reflexivity.
  - lia.
  - lia.
  - intros [H _]. discriminate H.
Defined.

Lemma missing_source_ends_with_1_witness :
  let w := Reference.world0 [] in
  exists w',
    Reference.ref_main true 0 (mk_cmdline 3 [Opt_m "foo"] (Some "missing.uc")) w = Ret (1, w') /\
    compiled (new_events w w') = [] /\
    executions (new_events w w') = 0%nat /\
    In (Print (Failed_to_open "missing.uc" E_fopen)) (new_events w w').
Proof.
  intros w.
  refine (missing_source_ends_with_1 true Reference.ref_search_path
            Reference.ref_tokener Reference.ref_functions Reference.ref_files uc_source
            Reference.ref_compile Reference.ref_execute 0%nat 3 [Opt_m "foo"]
            (Some "missing.uc") w
            (with_modules initial_locals (Jarray [Jstring "foo"])) w _ _ _ _).
  - discriminate.
  - reflexivity.
  - reflexivity.
  - reflexivity.
Defined.

Lemma positional_short_file_witness :
  let w := Reference.world0 [] in
  exists rv w',
    Reference.ref_main true 0 (mk_cmdline 2 [] (Some "a.uc")) w = Ret (rv, w') /\
    compiled (new_events w w') = [mk_source "a.uc" (mkFILE [97]) 0].
Proof.
  intros w.
  refine (positional_short_file true Reference.ref_search_path
            Reference.ref_tokener Reference.ref_functions Reference.ref_files uc_source
            Reference.ref_compile Reference.ref_execute 0%nat 2 [] "a.uc" [97]
            w initial_locals w _ _ _ _ _ _).
  - discriminate.
  - reflexivity.
  - reflexivity.
  - reflexivity.
  - simpl. lia.
  - repeat constructor; lia.
Defined.
